(** * Model3D: animation state of a model loaded from a file

    A shallow embedding of [spellbook/src/Geometry/Model3D.js]: the view
    [Model3DView_] that owns the loaded mesh and the model [Model3D] that owns
    the animation registry and the playback flags.

    Conventions of the embedding.
    - A JavaScript number is an IEEE 754 double, a [float]: [*], [+], [<]
      and [>=] are the operations of the doubles, with their rounding, their
      infinities and [NaN]. [undefined] where a number is expected is [None]
      of [option float], and a comparison with it is false, as in
      JavaScript.
    - The object [animations_] is created as [{}]. Its own properties are a
      [gmap string Animation]; its prototype is [Object.prototype], until an
      assignment to [animations_['__proto__']] puts a clip in its place.
      [name in animations_] and [animations_[name]] follow the prototype
      chain: they also find the names that the object inherits.
    - A method runs in the monad [ST]: it reads and writes the fields of
      [this], may throw, and records the calls it makes into the host
      framework and the loader. Fields written before a throw stay written.
    - Arguments have the types of the JSDoc annotations. *)

From Stdlib Require Import Floats.
From stdpp Require Import base strings gmap list.

Set Warnings "-inexact-float".

(** ** Errors *)

(** What a call can throw: a failed [log_.assert_], or the [TypeError] of
    the language for a property access on [null]/[undefined] and for a call
    of a method the object does not have. *)
Inductive Error :=
| AssertionFailed (message : string)
| TypeError (message : string).

Inductive Res (A : Type) :=
| Ok (a : A)
| Throw (e : Error).
Arguments Ok {A} a.
Arguments Throw {A} e.

(** The conditions of the specification (section 7). *)
Inductive Condition := InvalidArgument | InvalidState | NotFound.

(** Modelled from the spec: the classification of a failed assertion by its
    message. The code only has the messages; the specification names the
    conditions "no last animation" (InvalidState), undefined animation name
    (NotFound) and malformed argument (InvalidArgument). *)
Definition condition (e : Error) : option Condition :=
  match e with
  | AssertionFailed message =>
      if String.eqb message "There is no last animation to play." then Some InvalidState
      else if String.eqb message "Animation does not exist." then Some NotFound
      else Some InvalidArgument
  | TypeError _ => None
  end.

(** ** Calls into the host framework and the loader *)

(** [view] or [stencilView]: which of the two views [this] is. *)
Inductive ViewId := Primary | Stencil.

Inductive Effect :=
| dispatch (type : string)                 (* this.dispatch(new voodoo.Event(type, this)) *)
| scene_add (this : ViewId)                (* this.scene.add(mesh) *)
| scene_remove (this : ViewId)             (* this.scene.remove(this.modelMesh_) *)
| triggers_add (this : ViewId)             (* this.triggers.add(mesh) *)
| triggers_remove (this : ViewId)          (* this.triggers.remove(this.modelMesh_) *)
| material_dispose (this : ViewId)         (* this.material_.dispose() *)
| loader_load (this : ViewId) (src : string) (* loader.load(this.model.modelSrc_, callback) *)
| dirty (this : ViewId).                   (* this.dirty() *)

(** ** The monad of methods *)

Definition ST (S A : Type) : Type := S -> Res A * S * list Effect.

Definition ret {S A} (a : A) : ST S A := fun s => (Ok a, s, []).

Definition bind {S A B} (c : ST S A) (k : A -> ST S B) : ST S B :=
  fun s =>
    match c s with
    | (Ok a, s1, e1) => let '(r, s2, e2) := k a s1 in (r, s2, (e1 ++ e2)%list)
    | (Throw err, s1, e1) => (Throw err, s1, e1)
    end.

Definition get {S} : ST S S := fun s => (Ok s, s, []).
Definition modify {S} (f : S -> S) : ST S unit := fun s => (Ok tt, f s, []).
Definition throw {S A} (e : Error) : ST S A := fun s => (Throw e, s, []).
Definition emit {S} (e : Effect) : ST S unit := fun s => (Ok tt, s, [e]).

Declare Scope st_scope.
Delimit Scope st_scope with st.
Notation "x <- c1 ;; c2" := (bind c1 (fun x => c2))
  (at level 100, c1 at next level, right associativity) : st_scope.
Notation "c1 ;; c2" := (bind c1 (fun _ => c2))
  (at level 100, c2 at level 200, right associativity) : st_scope.
Local Open Scope st_scope.

(** The result, the final state and the calls made, of a run. *)
Definition result {S A} (x : Res A * S * list Effect) : Res A := x.1.1.
Definition state {S A} (x : Res A * S * list Effect) : S := x.1.2.
Definition effects {S A} (x : Res A * S * list Effect) : list Effect := x.2.

(** Modelled from the spec: [log_.assert_(condition, message, ...)], the
    shared assertion helper, is not in this file; by section 7 a failed
    assertion fails the call immediately. *)
Definition assert_ {S} (cond : bool) (message : string) : ST S unit :=
  if cond then ret tt else throw (AssertionFailed message).

(** ** Data *)

(** A clip, as [setAnimation] builds it. *)
Record Animation := {
  start : float;
  end_ : float;
  duration : float;
  loop : bool;
  forward : bool
}.

(** What the read [this.animations_[name]] can give, and so what [play]
    hands to the views: a clip, or a value that the object inherits and that
    is no clip (a method of [Object.prototype], [Object.prototype] itself, a
    number or a boolean). The properties [start], [end], [duration], [loop]
    and [forward] of such a value are [undefined]. *)
Inductive Value :=
| Clip (animation : Animation)
| Other.

(** [animation.start], [animation.end], [animation.duration],
    [animation.loop] and [animation.forward]; [None] is [undefined]. *)
Definition start_of (animation : Value) : option float :=
  match animation with Clip a => Some (start a) | Other => None end.
Definition end_of (animation : Value) : option float :=
  match animation with Clip a => Some (end_ a) | Other => None end.
Definition duration_of (animation : Value) : option float :=
  match animation with Clip a => Some (duration a) | Other => None end.
Definition loop_of (animation : Value) : option bool :=
  match animation with Clip a => Some (loop a) | Other => None end.
Definition forward_of (animation : Value) : option bool :=
  match animation with Clip a => Some (forward a) | Other => None end.

(** A boolean or [undefined] used as a condition. *)
Definition js_true (b : option bool) : bool :=
  match b with
  | Some b => b
  | None => false
  end.

(** The mesh object of the rendering library. [morph] tells a
    [THREE.MorphAnimMesh], which has [setDirectionForward],
    [setDirectionBackward], [setFrameRange] and [updateAnimation], from a
    plain [THREE.Mesh], which has none of them: it is what the test
    [this.modelMesh_.updateAnimation] of the source reads. *)
Record Mesh := {
  morph : bool;
  time : option float;
  mduration : option float;
  directionForward : bool;
  frameRange : option (option float * option float)
}.

Definition set_time (t : option float) (m : Mesh) : Mesh :=
  {| morph := morph m; time := t; mduration := mduration m;
     directionForward := directionForward m; frameRange := frameRange m |}.
Definition set_mduration (d : option float) (m : Mesh) : Mesh :=
  {| morph := morph m; time := time m; mduration := d;
     directionForward := directionForward m; frameRange := frameRange m |}.
(** [setDirectionForward()], [setDirectionBackward()] and
    [setFrameRange(start, end)] of [THREE.MorphAnimMesh], as section 6 of the
    specification describes them. *)
Definition setDirectionForward (m : Mesh) : Mesh :=
  {| morph := morph m; time := time m; mduration := mduration m;
     directionForward := true; frameRange := frameRange m |}.
Definition setDirectionBackward (m : Mesh) : Mesh :=
  {| morph := morph m; time := time m; mduration := mduration m;
     directionForward := false; frameRange := frameRange m |}.
Definition setFrameRange (s e : option float) (m : Mesh) : Mesh :=
  {| morph := morph m; time := time m; mduration := mduration m;
     directionForward := directionForward m; frameRange := Some (s, e) |}.

(** A material of the loaded model: its texture [map] (here only the
    [flipY] flag of it), when it has one, and [morphTargets]. *)
Record Material := {
  map : option bool;
  morphTargets : bool
}.

(** The fields of a [Model3DView_]. *)
Record View := {
  loaded : bool;
  pendingAnimation_ : option Value;
  modelMesh_ : option Mesh;
  material_ : option Material
}.

Definition set_loaded (b : bool) (v : View) : View :=
  {| loaded := b; pendingAnimation_ := pendingAnimation_ v;
     modelMesh_ := modelMesh_ v; material_ := material_ v |}.
Definition set_pendingAnimation_ (p : option Value) (v : View) : View :=
  {| loaded := loaded v; pendingAnimation_ := p;
     modelMesh_ := modelMesh_ v; material_ := material_ v |}.
Definition set_modelMesh_ (m : option Mesh) (v : View) : View :=
  {| loaded := loaded v; pendingAnimation_ := pendingAnimation_ v;
     modelMesh_ := m; material_ := material_ v |}.
Definition set_material_ (m : option Material) (v : View) : View :=
  {| loaded := loaded v; pendingAnimation_ := pendingAnimation_ v;
     modelMesh_ := modelMesh_ v; material_ := m |}.

(** [Model3D.Format]. *)
Inductive Format := JSON.

(** The fields of a [Model3D], with the views the host framework attaches
    to it: [view] always, [stencilView] when it renders stencils. The object
    [this.animations_] is two fields here: [animations_], its own
    properties, and [animations_proto_], the clip that is its prototype
    once [this.animations_['__proto__']] has been assigned one; until then
    its prototype is [Object.prototype]. [looping_] is what [play] reads
    from [animation.loop]: a boolean, or [undefined]. *)
Record Model3D := {
  modelSrc_ : string;
  format_ : Format;
  animated_ : bool;
  animations_ : gmap string Animation;
  animations_proto_ : option Animation;
  animation_ : string;
  playing_ : bool;
  looping_ : option bool;
  lastTime_ : option float;
  view : View;
  stencilView : option View
}.

Definition set_modelSrc_ (x : string) (m : Model3D) : Model3D :=
  {| modelSrc_ := x; format_ := format_ m; animated_ := animated_ m;
     animations_ := animations_ m; animations_proto_ := animations_proto_ m;
     animation_ := animation_ m; playing_ := playing_ m;
     looping_ := looping_ m; lastTime_ := lastTime_ m;
     view := view m; stencilView := stencilView m |}.
Definition set_animations_ (x : gmap string Animation) (m : Model3D) : Model3D :=
  {| modelSrc_ := modelSrc_ m; format_ := format_ m; animated_ := animated_ m;
     animations_ := x; animations_proto_ := animations_proto_ m;
     animation_ := animation_ m; playing_ := playing_ m;
     looping_ := looping_ m; lastTime_ := lastTime_ m;
     view := view m; stencilView := stencilView m |}.
Definition set_animations_proto_ (x : option Animation) (m : Model3D) : Model3D :=
  {| modelSrc_ := modelSrc_ m; format_ := format_ m; animated_ := animated_ m;
     animations_ := animations_ m; animations_proto_ := x;
     animation_ := animation_ m; playing_ := playing_ m;
     looping_ := looping_ m; lastTime_ := lastTime_ m;
     view := view m; stencilView := stencilView m |}.
Definition set_animation_ (x : string) (m : Model3D) : Model3D :=
  {| modelSrc_ := modelSrc_ m; format_ := format_ m; animated_ := animated_ m;
     animations_ := animations_ m; animations_proto_ := animations_proto_ m;
     animation_ := x; playing_ := playing_ m;
     looping_ := looping_ m; lastTime_ := lastTime_ m;
     view := view m; stencilView := stencilView m |}.
Definition set_playing_ (x : bool) (m : Model3D) : Model3D :=
  {| modelSrc_ := modelSrc_ m; format_ := format_ m; animated_ := animated_ m;
     animations_ := animations_ m; animations_proto_ := animations_proto_ m;
     animation_ := animation_ m; playing_ := x;
     looping_ := looping_ m; lastTime_ := lastTime_ m;
     view := view m; stencilView := stencilView m |}.
Definition set_looping_ (x : option bool) (m : Model3D) : Model3D :=
  {| modelSrc_ := modelSrc_ m; format_ := format_ m; animated_ := animated_ m;
     animations_ := animations_ m; animations_proto_ := animations_proto_ m;
     animation_ := animation_ m; playing_ := playing_ m;
     looping_ := x; lastTime_ := lastTime_ m;
     view := view m; stencilView := stencilView m |}.
Definition set_lastTime_ (x : option float) (m : Model3D) : Model3D :=
  {| modelSrc_ := modelSrc_ m; format_ := format_ m; animated_ := animated_ m;
     animations_ := animations_ m; animations_proto_ := animations_proto_ m;
     animation_ := animation_ m; playing_ := playing_ m;
     looping_ := looping_ m; lastTime_ := x;
     view := view m; stencilView := stencilView m |}.
Definition set_view (x : View) (m : Model3D) : Model3D :=
  {| modelSrc_ := modelSrc_ m; format_ := format_ m; animated_ := animated_ m;
     animations_ := animations_ m; animations_proto_ := animations_proto_ m;
     animation_ := animation_ m; playing_ := playing_ m;
     looping_ := looping_ m; lastTime_ := lastTime_ m;
     view := x; stencilView := stencilView m |}.
Definition set_stencilView (x : option View) (m : Model3D) : Model3D :=
  {| modelSrc_ := modelSrc_ m; format_ := format_ m; animated_ := animated_ m;
     animations_ := animations_ m; animations_proto_ := animations_proto_ m;
     animation_ := animation_ m; playing_ := playing_ m;
     looping_ := looping_ m; lastTime_ := lastTime_ m;
     view := view m; stencilView := x |}.

(** [this.view.f(...)]: a method of the primary view run from the model. *)
Definition on_view {A} (c : ST View A) : ST Model3D A :=
  fun m => let '(r, v, e) := c (view m) in (r, set_view v m, e).

(** [if (this.stencilView) this.stencilView.f(...)]. *)
Definition on_stencilView (c : ST View unit) : ST Model3D unit :=
  fun m =>
    match stencilView m with
    | Some sv => let '(r, v, e) := c sv in (r, set_stencilView (Some v) m, e)
    | None => (Ok tt, m, [])
    end.

(** What a method returns when it returns [this]. *)
Inductive Ref := this.

(** [a < b] of JavaScript on values that are numbers or [undefined]:
    [undefined] converts to [NaN] and the comparison is then false. *)
Definition js_lt (a b : option float) : bool :=
  match a, b with
  | Some x, Some y => (x <? y)%float
  | _, _ => false
  end.

(** [x >= 0] on a number: false on [NaN], true on both zeros and on
    [Infinity]. *)
Definition js_ge0 (x : float) : bool := (0 <=? x)%float.

(** A string used as a condition: true when not empty. *)
Definition truthy (s : string) : bool := negb (String.eqb s "").

(** ** Model3DView_ *)

(** [this.modelMesh_.p]: reading or writing a property of the mesh is a
    [TypeError] while [modelMesh_] is [null] or [undefined]. *)
Definition the_mesh : ST View Mesh :=
  fun v =>
    match modelMesh_ v with
    | Some mesh => (Ok mesh, v, [])
    | None => (Throw (TypeError "this.modelMesh_ is null or undefined"), v, [])
    end.

(** [this.modelMesh_.p = x]. *)
Definition mesh_assign (f : Mesh -> Mesh) : ST View unit :=
  mesh <- the_mesh;; modify (set_modelMesh_ (Some (f mesh))).

(** [this.modelMesh_.method(...)] for a method that only a
    [THREE.MorphAnimMesh] has: on a plain mesh the property is [undefined]
    and the call is a [TypeError]. *)
Definition mesh_call (method : string) (f : Mesh -> Mesh) : ST View unit :=
  mesh <- the_mesh;;
  if morph mesh then modify (set_modelMesh_ (Some (f mesh)))
  else throw (TypeError (method +:+ " is not a function")).

Definition unload (id : ViewId) : ST View unit :=
  v <- get;;
  (match modelMesh_ v with
   | Some _ =>
       emit (scene_remove id);;
       emit (triggers_remove id);;
       modify (set_modelMesh_ None)
   | None => ret tt
   end);;
  v <- get;;
  match material_ v with
  | Some _ =>
      emit (material_dispose id);;
      modify (set_material_ None)
  | None => ret tt
  end.

(** The loader is asked for the file; its callback is [loadJson_callback]
    below, run when and if the loader answers. *)
Definition loadJson_ (id : ViewId) (modelSrc : string) : ST View unit :=
  emit (loader_load id modelSrc).

Definition loadModel_ (id : ViewId) (format : Format) (modelSrc : string) : ST View unit :=
  unload id;;
  match format with
  | JSON => loadJson_ id modelSrc
  end.

Definition load (id : ViewId) (format : Format) (modelSrc : string) : ST View unit :=
  modify (set_loaded false);;
  modify (set_pendingAnimation_ None);;
  loadModel_ id format modelSrc.

(** The object that [new THREE.MorphAnimMesh(...)] or [new THREE.Mesh(...)]
    returns: the library fills its fields ([built]), the class is the one
    instantiated. *)
Definition new_mesh (animated : bool) (built : Mesh) : Mesh :=
  {| morph := animated; time := time built; mduration := mduration built;
     directionForward := directionForward built; frameRange := frameRange built |}.

(** The callback of [loader.load] in [loadJson_], called with the materials
    of the file. The loop at its head runs its body once, for [i = 0], when
    [materials] is not empty ([len] is the boolean [0 < materials.length]):
    it binds [material] to [materials[0]] and sets [flipY] on
    [materials.map], the [map] method of the array, which no material
    sees. *)
Definition loadJson_callback (id : ViewId) (animated : bool) (built : Mesh)
    (materials : list Material) : ST View unit :=
  let finish (mesh : Mesh) (material : option Material) : ST View unit :=
    modify (set_modelMesh_ (Some mesh));;
    emit (scene_add id);;
    emit (triggers_add id);;
    modify (set_material_ material);;
    modify (set_loaded true) in
  if animated then
    match head materials with
    | None => throw (TypeError "materials[0] is undefined")
    | Some material =>
        match map material with
        | None => throw (TypeError "material.map is undefined")
        | Some _ =>
            finish (new_mesh true built)
                   (Some {| map := Some false; morphTargets := true |})
        end
    end
  else finish (new_mesh false built) (head materials).

Definition playAnimation_ (animation : Value) : ST View unit :=
  v <- get;;
  if negb (loaded v) then modify (set_pendingAnimation_ (Some animation))
  else
    mesh_assign (set_time (Some 0%float));;
    mesh_assign (set_mduration (duration_of animation));;
    (if js_true (forward_of animation)
     then mesh_call "setDirectionForward" setDirectionForward
     else mesh_call "setDirectionBackward" setDirectionBackward);;
    mesh_call "setFrameRange" (setFrameRange (start_of animation) (end_of animation)).

Definition getLastTime_ : ST View (option float) :=
  v <- get;;
  if loaded v then (mesh <- the_mesh;; ret (time mesh)) else ret (Some 0%float).

Section WithLibrary.

(** [updateAnimation(delta)] of [THREE.MorphAnimMesh]: the rendering
    library advances the clock of the mesh. It is not part of this
    repository; the development holds for any such function. *)
Variable updateAnimation : Mesh -> float -> Mesh.

Definition updateAnimation_ (id : ViewId) (deltaTimeMs : float) : ST View unit :=
  v <- get;;
  if negb (loaded v) then ret tt
  else
    (match pendingAnimation_ v with
     | Some animation =>
         playAnimation_ animation;;
         modify (set_pendingAnimation_ None)
     | None => ret tt
     end);;
    mesh <- the_mesh;;
    if morph mesh then
      mesh_assign (fun m => updateAnimation m deltaTimeMs);;
      emit (dirty id)
    else ret tt.

Definition setToLastFrame_ (id : ViewId) : ST View unit :=
  mesh <- the_mesh;;
  if morph mesh then
    mesh_assign (set_time (Some 1%float));;
    mesh_assign (fun m => updateAnimation m 0%float);;
    emit (dirty id)
  else ret tt.


(** ** Model3D *)

(** The options object of the constructor. *)
Record Options := {
  modelSrc : string;
  format : option string;
  animated : option bool
}.

(** The fields of a view before the framework calls [load] on it. *)
Definition new_view : View :=
  {| loaded := false; pendingAnimation_ := None; modelMesh_ := None; material_ := None |}.

(** [initialize(options)]. [lastTime_] is not assigned here: it stays
    [undefined] until [play] assigns it. [stencils] tells whether the
    framework attaches a stencil view to the model. *)
Definition initialize (options : Options) (stencils : bool) : Res Model3D :=
  let object (f : Format) :=
    {| modelSrc_ := modelSrc options;
       format_ := f;
       animated_ := default true (animated options);
       animations_ := ∅;
       animations_proto_ := None;
       animation_ := "";
       playing_ := false;
       looping_ := Some false;
       lastTime_ := None;
       view := new_view;
       stencilView := if stencils then Some new_view else None |} in
  if negb (truthy (modelSrc options)) then Throw (AssertionFailed "modelSrc must be valid.")
  else
    match format options with
    | Some f =>
        if String.eqb f "json" then Ok (object JSON)
        else Throw (AssertionFailed "format must be valid.")
    | None => Ok (object JSON)
    end.

(** The framework then calls [load] on each view of the model. *)
Definition load_views : ST Model3D unit :=
  m <- get;;
  on_view (load Primary (format_ m) (modelSrc_ m));;
  on_stencilView (load Stencil (format_ m) (modelSrc_ m)).

(** The methods that every object inherits from [Object.prototype], as
    ECMAScript defines it (annex B included), and the properties of a
    clip. *)
Definition Object_prototype_methods : list string :=
  ["constructor"; "hasOwnProperty"; "isPrototypeOf"; "propertyIsEnumerable";
   "toLocaleString"; "toString"; "valueOf";
   "__defineGetter__"; "__defineSetter__"; "__lookupGetter__"; "__lookupSetter__"].
Definition clip_properties : list string :=
  ["start"; "end"; "duration"; "loop"; "forward"].

(** [this.animations_[name]], with [None] when [name in this.animations_]
    is false. An own property is a clip. Otherwise the name is looked up
    along the prototype chain: [__proto__] is the accessor of
    [Object.prototype] and gives the prototype of the object, the clip put
    there or [Object.prototype] itself; a property of the clip that is the
    prototype is a number or a boolean; a method of [Object.prototype] is a
    function. No inherited property has the value [undefined], so the read
    gives a value exactly when [in] holds. *)
Definition lookup_animation (name : string) (m : Model3D) : option Value :=
  match animations_ m !! name with
  | Some animation => Some (Clip animation)
  | None =>
      if String.eqb name "__proto__" then
        Some (match animations_proto_ m with Some p => Clip p | None => Other end)
      else if match animations_proto_ m with
              | Some _ => bool_decide (name ∈ clip_properties)
              | None => false
              end
      then Some Other
      else if bool_decide (name ∈ Object_prototype_methods) then Some Other
      else None
  end.

(** [name in this.animations_]. *)
Definition has_animation (name : string) (m : Model3D) : bool :=
  match lookup_animation name m with
  | Some _ => true
  | None => false
  end.

(** [this.animations_[name] = animation]. The assignment creates or
    replaces an own property, except under the name [__proto__], which the
    object inherits as an accessor: its setter makes the value the
    prototype of the object and no own property is created. *)
Definition assign_animation (name : string) (animation : Animation) (m : Model3D)
  : Model3D :=
  match animations_ m !! name with
  | None =>
      if String.eqb name "__proto__" then set_animations_proto_ (Some animation) m
      else set_animations_ (<[name := animation]> (animations_ m)) m
  | Some _ => set_animations_ (<[name := animation]> (animations_ m)) m
  end.

Definition stop : ST Model3D Ref :=
  m <- get;;
  (if playing_ m then emit (dispatch "stop") else ret tt);;
  modify (set_playing_ false);;
  ret this.

(** [play(opt_name)]; [None] is the call without argument. The assertion
    [opt_name in this.animations_] and the read [this.animations_[opt_name]]
    that follows it are the one lookup along the prototype chain.
    [this.playing_] is read from the model as it was on entry: the calls
    into the views before the test do not write it. *)
Definition play (opt_name : option string) : ST Model3D Ref :=
  m <- get;;
  match opt_name with
  | None =>
      assert_ (has_animation (animation_ m) m) "There is no last animation to play.";;
      modify (set_playing_ true);;
      ret this
  | Some name =>
      assert_ (truthy name) "name must be valid.";;
      match lookup_animation name m with
      | None => throw (AssertionFailed "Animation does not exist.")
      | Some animation =>
          if String.eqb (animation_ m) name then
            modify (set_playing_ true);;
            ret this
          else
            modify (set_animation_ name);;
            on_view (playAnimation_ animation);;
            on_stencilView (playAnimation_ animation);;
            (if negb (playing_ m) then emit (dispatch "play") else ret tt);;
            modify (set_playing_ true);;
            modify (set_looping_ (loop_of animation));;
            modify (set_lastTime_ (Some 0%float));;
            ret this
      end
  end.

(** [setAnimation(name, start, end, seconds, opt_loop, opt_forward)]. The
    arguments are typed, so the [typeof] assertions hold; [seconds * 1000]
    is the product of the doubles. *)
Definition setAnimation (name : string) (start end_ seconds : float)
    (opt_loop opt_forward : option bool) : ST Model3D Ref :=
  assert_ (truthy name) "name must be valid.";;
  assert_ (js_ge0 start) "start must be >= 0.";;
  assert_ (js_ge0 end_) "end must be >= 0.";;
  assert_ (js_ge0 seconds) "seconds must be >= 0.";;
  modify (assign_animation name
            {| start := start;
               end_ := end_;
               duration := (seconds * 1000)%float;
               loop := match opt_loop with Some l => l | None => true end;
               forward := match opt_forward with None => true | Some f => f end |});;
  ret this.

(** [setModelSrc(modelSrc)]. The test [if (this.view)] holds, the primary
    view being attached; the views read the format and the new path from
    the model. *)
Definition setModelSrc (modelSrc : string) : ST Model3D Ref :=
  assert_ (truthy modelSrc) "modelSrc must be valid.";;
  m <- get;;
  if String.eqb (modelSrc_ m) modelSrc then ret this
  else
    modify (set_modelSrc_ modelSrc);;
    stop;;
    emit (dispatch "changeModelSrc");;
    on_view (loadModel_ Primary (format_ m) modelSrc);;
    on_stencilView (loadModel_ Stencil (format_ m) modelSrc);;
    ret this.

(** [update(deltaTime)], the tick of the host framework. [this.looping_]
    and [this.lastTime_] are read from the model as it was on entry: the
    calls into the views before the tests do not write them. *)
Definition update (deltaTime : float) : ST Model3D unit :=
  m <- get;;
  if playing_ m then
    let deltaTimeMs := (deltaTime * 1000)%float in
    on_view (updateAnimation_ Primary deltaTimeMs);;
    on_stencilView (updateAnimation_ Stencil deltaTimeMs);;
    if negb (js_true (looping_ m)) then
      lastTime <- on_view getLastTime_;;
      if js_lt lastTime (lastTime_ m) then
        on_view (setToLastFrame_ Primary);;
        on_stencilView (setToLastFrame_ Stencil);;
        stop;;
        ret tt
      else modify (set_lastTime_ lastTime)
    else ret tt
  else ret tt.

Definition set_modelSrc (modelSrc : string) : ST Model3D Ref :=
  setModelSrc modelSrc.

(** ** Runs *)

(** What can happen to a model once it is built: a call of a public method,
    a tick, or the loader answering a [load] of one of the views. *)
Inductive Call :=
| call_setAnimation (name : string) (start end_ seconds : float)
    (opt_loop opt_forward : option bool)
| call_play (opt_name : option string)
| call_stop
| call_setModelSrc (modelSrc : string)
| call_update (deltaTime : float)
| loader_answers (id : ViewId) (built : Mesh) (materials : list Material).

Definition exec (c : Call) : ST Model3D unit :=
  match c with
  | call_setAnimation name s e seconds l f => setAnimation name s e seconds l f;; ret tt
  | call_play opt_name => play opt_name;; ret tt
  | call_stop => stop;; ret tt
  | call_setModelSrc src => setModelSrc src;; ret tt
  | call_update deltaTime => update deltaTime
  | loader_answers Primary built materials =>
      m <- get;; on_view (loadJson_callback Primary (animated_ m) built materials)
  | loader_answers Stencil built materials =>
      m <- get;; on_stencilView (loadJson_callback Stencil (animated_ m) built materials)
  end.

(** The model after a run of calls; a call that throws leaves the model as
    it was at the throw, and the run goes on. *)
Fixpoint run (cs : list Call) (m : Model3D) : Model3D :=
  match cs with
  | [] => m
  | c :: cs' => run cs' (state (exec c m))
  end.

(** The model as the framework hands it to the application. *)
Definition create (options : Options) (stencils : bool) : Res Model3D :=
  match initialize options stencils with
  | Ok m => Ok (state (load_views m))
  | Throw e => Throw e
  end.

Inductive reachable : Model3D -> Prop :=
| reachable_create options stencils m :
    create options stencils = Ok m -> reachable m
| reachable_exec c m :
    reachable m -> reachable (state (exec c m)).

End WithLibrary.

(** ** Observations on runs *)

(** How many events of a type were dispatched. *)
Fixpoint dispatched (type : string) (es : list Effect) : nat :=
  match es with
  | [] => 0
  | dispatch t :: es' => (if String.eqb t type then 1 else 0) + dispatched type es'
  | _ :: es' => dispatched type es'
  end.

(** The invariants of the specification (section 3). A key of the mapping
    is a name under which [setAnimation] has stored a clip: an own property
    of [animations_]. *)
Definition animation_registered (m : Model3D) : Prop :=
  animation_ m = "" ∨ is_Some (animations_ m !! animation_ m).

Definition looping_mirrors_clip (m : Model3D) : Prop :=
  playing_ m = true ->
  ∃ animation, animations_ m !! animation_ m = Some animation
               ∧ looping_ m = Some (loop animation).

(** The loop flag and the selection agree: no clip has the empty name, the
    selected name is empty or the name of a clip, [looping_] is the loop
    flag of the selected clip when there is one, and there is one while the
    model plays. *)
Definition selection_consistent (m : Model3D) : Prop :=
  animations_ m !! "" = None
  ∧ animation_registered m
  ∧ (∀ animation, animations_ m !! animation_ m = Some animation ->
                  looping_ m = Some (loop animation))
  ∧ (playing_ m = true -> is_Some (animations_ m !! animation_ m)).

(** A name that [animations_] has only by inheritance: [in] finds it, and no
    clip is stored under it. *)
Definition only_inherited (name : string) (m : Model3D) : bool :=
  has_animation name m && bool_decide (animations_ m !! name = None).

(** A call that is not a [play] of a name that [animations_] only
    inherits. *)
Definition plays_stored_names (m : Model3D) (c : Call) : Prop :=
  match c with
  | call_play (Some name) => only_inherited name m = false
  | _ => True
  end.

(** A call that leaves the selected clip and [looping_] in step: it is not a
    [setAnimation] that stores, under the selected name, a clip with another
    loop flag; it is not a [play] cut short by a [TypeError] of a view; and
    it is not a [play] of a name that [animations_] only inherits. *)
Definition keeps_selection (m : Model3D) (c : Call) : Prop :=
  match c with
  | call_setAnimation name start end_ seconds opt_loop opt_forward =>
      result (setAnimation name start end_ seconds opt_loop opt_forward m) = Ok this ->
      name = animation_ m -> Some (default true opt_loop) = looping_ m
  | call_play opt_name =>
      (∀ message, result (play opt_name m) ≠ Throw (TypeError message))
      ∧ plays_stored_names m c
  | _ => True
  end.

(** The states reached from the constructor by calls among which no [play]
    names a property that [animations_] only inherits. *)
Inductive reachable_playing_stored_names (updateAnimation : Mesh -> float -> Mesh)
  : Model3D -> Prop :=
| stored_names_create options stencils m :
    create options stencils = Ok m ->
    reachable_playing_stored_names updateAnimation m
| stored_names_exec c m :
    reachable_playing_stored_names updateAnimation m ->
    plays_stored_names m c ->
    reachable_playing_stored_names updateAnimation (state (exec updateAnimation c m)).

Inductive reachable_keeping_selection (updateAnimation : Mesh -> float -> Mesh)
  : Model3D -> Prop :=
| keeping_create options stencils m :
    create options stencils = Ok m ->
    reachable_keeping_selection updateAnimation m
| keeping_exec c m :
    reachable_keeping_selection updateAnimation m ->
    keeps_selection m c ->
    reachable_keeping_selection updateAnimation (state (exec updateAnimation c m)).

(** A view holds a mesh; it holds a mesh that can be animated. *)
Definition has_mesh (v : View) : bool :=
  match modelMesh_ v with Some _ => true | None => false end.
Definition has_material (v : View) : bool :=
  match material_ v with Some _ => true | None => false end.
Definition has_morph_mesh (v : View) : bool :=
  match modelMesh_ v with Some mesh => morph mesh | None => false end.

(** The model once [play] has selected [name] and both views have taken the
    value found under it. *)
Definition selected (name : string) (animation : Value) (v : View)
    (sv : option View) (m : Model3D) : Model3D :=
  {| modelSrc_ := modelSrc_ m; format_ := format_ m; animated_ := animated_ m;
     animations_ := animations_ m; animations_proto_ := animations_proto_ m;
     animation_ := name;
     playing_ := true; looping_ := loop_of animation; lastTime_ := Some 0%float;
     view := v; stencilView := sv |}.

(** The model once [setModelSrc] has taken a new path: the path is stored,
    the playback is stopped and each view has dropped its mesh and
    material. *)
Definition reloading (path : string) (m : Model3D) : Model3D :=
  {| modelSrc_ := path; format_ := format_ m; animated_ := animated_ m;
     animations_ := animations_ m; animations_proto_ := animations_proto_ m;
     animation_ := animation_ m;
     playing_ := false; looping_ := looping_ m; lastTime_ := lastTime_ m;
     view := set_material_ None (set_modelMesh_ None (view m));
     stencilView :=
       match stencilView m with
       | Some sv => Some (set_material_ None (set_modelMesh_ None sv))
       | None => None
       end |}.

(** What [loadModel_] calls on a view: it takes the mesh out of the scene
    and the triggers and disposes of the material, when there are any, and
    then asks the loader for the file. *)
Definition reload_calls (id : ViewId) (path : string) (v : View) : list Effect :=
  (if has_mesh v then [scene_remove id; triggers_remove id] else [])
    ++ (if has_material v then [material_dispose id] else [])
    ++ [loader_load id path].

(** [m'] has the registry, the selection and the loop flag of [m], and
    plays only if [m] did. *)
Definition same_selection (m m' : Model3D) : Prop :=
  animations_ m' = animations_ m
  ∧ animations_proto_ m' = animations_proto_ m
  ∧ animation_ m' = animation_ m
  ∧ looping_ m' = looping_ m
  ∧ (playing_ m' = true -> playing_ m = true).

(** A view that can take a clip: it is not loaded yet, or it holds a mesh
    that can be animated. *)
Definition takes_clips (v : View) : bool := negb (loaded v) || has_morph_mesh v.

(** The first half of a tick, up to the time it samples from the primary
    view: both views advance, then the primary view is read. *)
Definition advance_and_sample (updateAnimation : Mesh -> float -> Mesh) (deltaTime : float)
  : ST Model3D (option float) :=
  on_view (updateAnimation_ updateAnimation Primary (deltaTime * 1000)%float);;
  on_stencilView (updateAnimation_ updateAnimation Stencil (deltaTime * 1000)%float);;
  on_view getLastTime_.

(** The second half of a tick that found the clip finished. *)
Definition snap_and_stop (updateAnimation : Mesh -> float -> Mesh) : ST Model3D unit :=
  on_view (setToLastFrame_ updateAnimation Primary);;
  on_stencilView (setToLastFrame_ updateAnimation Stencil);;
  stop;;
  ret tt.

(** A view snapped to the last frame. *)
Definition snapped (updateAnimation : Mesh -> float -> Mesh) (v : View) : View :=
  match modelMesh_ v with
  | Some mesh =>
      if morph mesh
      then set_modelMesh_ (Some (updateAnimation (set_time (Some 1%float) mesh) 0%float)) v
      else v
  | None => v
  end.

(** The files asked of the loader, in order. *)
Fixpoint requests (es : list Effect) : list (ViewId * string) :=
  match es with
  | [] => []
  | loader_load id src :: es' => (id, src) :: requests es'
  | _ :: es' => requests es'
  end.

(** A view that is not marked loaded holds neither mesh nor material. *)
Definition unloaded_is_empty (v : View) : Prop :=
  loaded v = false -> modelMesh_ v = None ∧ material_ v = None.

(** The views of a model satisfy [P]. *)
Definition views_satisfy (P : View -> Prop) (m : Model3D) : Prop :=
  P (view m) ∧ match stencilView m with Some sv => P sv | None => True end.

(** An effect that is a call of [this.dirty()] or the dispatch of a [stop]
    event: all that a tick may do outside the model. *)
Definition tick_effect (e : Effect) : bool :=
  match e with
  | dirty _ => true
  | dispatch type => String.eqb type "stop"
  | _ => false
  end.

(** A method keeps the relation [R] between the object it finds and the
    object it leaves, whether it returns or throws, and every call it makes
    outside satisfies [P]. *)
Definition keeps {S A} (R : S -> S -> Prop) (P : Effect -> Prop) (c : ST S A)
  : Prop :=
  ∀ s, R s (state (c s)) ∧ Forall P (effects (c s)).

(** What a tick leaves alone: [m'] has the source, the format, the clips,
    the selection and the loop flag of [m], and it plays only if [m] did. *)
Definition tick_frame (m m' : Model3D) : Prop :=
  modelSrc_ m' = modelSrc_ m
  ∧ format_ m' = format_ m
  ∧ animated_ m' = animated_ m
  ∧ animations_ m' = animations_ m
  ∧ animations_proto_ m' = animations_proto_ m
  ∧ animation_ m' = animation_ m
  ∧ looping_ m' = looping_ m
  ∧ (playing_ m' = true -> playing_ m = true).

(** [m'] has every field of [m] but, possibly, the views. *)
Definition views_only (m m' : Model3D) : Prop :=
  ∃ v sv, m' = set_stencilView sv (set_view v m).

(** The events of the component. *)
Definition component_events : list string := ["play"; "stop"; "changeModelSrc"].

(** A call outside the model that dispatches no event other than those. *)
Definition component_effect (e : Effect) : Prop :=
  match e with
  | dispatch type => type ∈ component_events
  | _ => True
  end.

(** What every call leaves alone: [animated_] and the format are kept, a
    source that is not empty stays so, and views that hold nothing while
    not loaded stay so. *)
Definition run_frame (m m' : Model3D) : Prop :=
  animated_ m' = animated_ m
  ∧ format_ m' = format_ m
  ∧ (modelSrc_ m ≠ "" -> modelSrc_ m' ≠ "")
  ∧ (views_satisfy unloaded_is_empty m -> views_satisfy unloaded_is_empty m').

(** ** Sample inputs *)

(** A clock for the library: it advances [time] by [delta] and wraps at
    [duration]. *)
Definition wrapping_clock (m : Mesh) (delta : float) : Mesh :=
  match time m, mduration m with
  | Some t, Some d =>
      let t' := (t + delta)%float in
      set_time (Some (if (d <=? t')%float then (t' - d)%float else t')) m
  | _, _ => m
  end.

(** The mesh as the library builds it, and a textured material. *)
Definition built_mesh : Mesh :=
  {| morph := true; time := Some 0%float; mduration := Some 1000%float;
     directionForward := true; frameRange := None |}.
Definition textured : Material := {| map := Some true; morphTargets := false |}.

(** Options with the defaults, and options of a model that is not
    animated. *)
Definition default_options : Options :=
  {| modelSrc := "a.json"; format := None; animated := None |}.
Definition plain_options : Options :=
  {| modelSrc := "a.json"; format := None; animated := Some false |}.

(** The model that the constructor and [load] of the views give for such
    options, with or without a stencil view. *)
Definition fresh (stencils : bool) (animated : option bool) : Model3D :=
  {| modelSrc_ := "a.json"; format_ := JSON;
     animated_ := default true animated;
     animations_ := ∅; animations_proto_ := None; animation_ := "";
     playing_ := false; looping_ := Some false;
     lastTime_ := None; view := new_view;
     stencilView := if stencils then Some new_view else None |}.

(** A model whose primary view has loaded, playing the clip "once" a
    single time, half a second in; there is no stencil view. *)
Definition playing_once : Model3D :=
  run wrapping_clock
    [loader_answers Primary built_mesh [textured];
     call_setAnimation "once" 0 10 1 (Some false) None;
     call_play (Some "once");
     call_update 0.5]
    (fresh false None).

(** A model that has loaded and registered "walk", and whose source was
    then changed: its view is marked loaded and holds no mesh. *)
Definition reloading_model : Model3D :=
  run wrapping_clock
    [loader_answers Primary built_mesh [textured];
     call_setAnimation "walk" 0 30 2 None None;
     call_play (Some "walk");
     call_setModelSrc "b.json"]
    (fresh false None).

(** * Properties *)

#[local] Arguments js_ge0 : simpl never.
#[local] Arguments js_lt : simpl never.

(** ** The guards *)

Lemma truthy_spec (s : string) : truthy s = true <-> s ≠ "".
Proof. unfold truthy. rewrite negb_true_iff. apply String.eqb_neq. Qed.

Lemma truthy_empty : truthy "" = false.
Proof. reflexivity. Qed.

(** The comparisons on the numbers that are not ordinary: [NaN] is refused,
    both zeros and [Infinity] are accepted, and nothing is below
    [undefined]. *)
Lemma js_ge0_special :
  js_ge0 nan = false ∧ js_ge0 infinity = true ∧ js_ge0 neg_infinity = false
  ∧ js_ge0 0 = true ∧ js_ge0 (-0) = true.
Proof. repeat split; reflexivity. Qed.

Lemma js_lt_undefined (x : option float) :
  js_lt None x = false ∧ js_lt x None = false.
Proof. by destruct x. Qed.

(** ** The lookup along the prototype chain *)

Lemma has_animation_spec (name : string) (m : Model3D) :
  has_animation name m = true <-> is_Some (lookup_animation name m).
Proof.
  unfold has_animation. destruct (lookup_animation name m) as [a|].
  - split; [by eexists | done].
  - split; [done | by intros [a Ha]].
Qed.

(** The lookup reads the own properties and the prototype, and nothing
    else. *)
Lemma lookup_animation_same (name : string) (m m' : Model3D) :
  animations_ m' = animations_ m -> animations_proto_ m' = animations_proto_ m ->
  lookup_animation name m' = lookup_animation name m.
Proof. intros H1 H2. unfold lookup_animation. by rewrite H1, H2. Qed.

Lemma has_animation_same (name : string) (m m' : Model3D) :
  animations_ m' = animations_ m -> animations_proto_ m' = animations_proto_ m ->
  has_animation name m' = has_animation name m.
Proof.
  intros H1 H2. unfold has_animation. by rewrite (lookup_animation_same name m m').
Qed.

(** A clip stored under a name is what the lookup gives. *)
Lemma lookup_animation_own (name : string) (m : Model3D) (animation : Animation) :
  animations_ m !! name = Some animation ->
  lookup_animation name m = Some (Clip animation).
Proof. intros H. unfold lookup_animation. by rewrite H. Qed.

Lemma has_animation_own (name : string) (m : Model3D) :
  is_Some (animations_ m !! name) -> has_animation name m = true.
Proof.
  intros [a Ha]. unfold has_animation. by rewrite (lookup_animation_own name m a).
Qed.

(** Under a name that is not stored the lookup gives what the object
    inherits, and nothing for the empty name. *)
Lemma lookup_animation_inherited (name : string) (m : Model3D) :
  animations_ m !! name = None ->
  lookup_animation name m
  = if String.eqb name "__proto__"
    then Some (match animations_proto_ m with Some p => Clip p | None => Other end)
    else if match animations_proto_ m with
            | Some _ => bool_decide (name ∈ clip_properties)
            | None => false
            end
            || bool_decide (name ∈ Object_prototype_methods)
         then Some Other else None.
Proof.
  intros H. unfold lookup_animation. rewrite H.
  destruct (String.eqb name "__proto__"); [done|].
  by destruct (animations_proto_ m), (bool_decide (name ∈ clip_properties)),
    (bool_decide (name ∈ Object_prototype_methods)).
Qed.

Lemma lookup_animation_empty (m : Model3D) :
  animations_ m !! "" = None -> lookup_animation "" m = None.
Proof.
  intros H. rewrite (lookup_animation_inherited "" m H).
  by destruct (animations_proto_ m).
Qed.

(** Every object has the methods of [Object.prototype] and [__proto__]. *)
Lemma has_animation_Object_prototype (name : string) (m : Model3D) :
  name ∈ "__proto__" :: Object_prototype_methods -> has_animation name m = true.
Proof.
  intros Hin. unfold has_animation, lookup_animation.
  destruct (animations_ m !! name); [done|].
  destruct (String.eqb name "__proto__") eqn:He; [done|].
  apply String.eqb_neq in He. apply elem_of_cons in Hin as [?|Hin]; [done|].
  apply (bool_decide_eq_true_2 (name ∈ Object_prototype_methods)) in Hin.
  rewrite Hin.
  by destruct (animations_proto_ m), (bool_decide (name ∈ clip_properties)).
Qed.

(** Under the name of a method of [Object.prototype] that is not stored,
    the lookup gives the method. *)
Lemma lookup_animation_method (name : string) (m : Model3D) :
  name ∈ Object_prototype_methods -> animations_ m !! name = None ->
  name ≠ "" ∧ lookup_animation name m = Some Other.
Proof.
  intros Hin Hown.
  apply (bool_decide_eq_true_2 (name ∈ Object_prototype_methods)) in Hin.
  split; [by intros -> |].
  rewrite (lookup_animation_inherited name m Hown), Hin, orb_true_r.
  destruct (String.eqb name "__proto__") eqn:He; [|done].
  by apply String.eqb_eq in He as ->.
Qed.

(** What [in] finds that is not stored is among the inherited names. *)
Lemma only_inherited_names (name : string) (m : Model3D) :
  only_inherited name m = true ->
  name ∈ "__proto__" :: Object_prototype_methods ++ clip_properties.
Proof.
  unfold only_inherited, has_animation. intros H.
  apply andb_true_iff in H as [Hh Hn]. apply bool_decide_eq_true in Hn.
  rewrite (lookup_animation_inherited name m Hn) in Hh.
  destruct (String.eqb name "__proto__") eqn:He.
  - apply String.eqb_eq in He as ->. by left.
  - right. apply elem_of_app.
    destruct (bool_decide (name ∈ Object_prototype_methods)) eqn:Hm.
    + left. by apply bool_decide_eq_true in Hm.
    + right. rewrite orb_false_r in Hh. destruct (animations_proto_ m); [|done].
      destruct (bool_decide (name ∈ clip_properties)) eqn:Hc; [|done].
      by apply bool_decide_eq_true in Hc.
Qed.

(** ** The views *)

Lemma unload_eq (id : ViewId) (v : View) :
  unload id v =
    (Ok tt, set_material_ None (set_modelMesh_ None v),
     (if has_mesh v then [scene_remove id; triggers_remove id] else [])
       ++ (if has_material v then [material_dispose id] else [])).
Proof.
  destruct v as [l p [mesh|] [mat|]]; reflexivity.
Qed.

Lemma loadModel__eq (id : ViewId) (f : Format) (src : string) (v : View) :
  loadModel_ id f src v =
    (Ok tt, set_material_ None (set_modelMesh_ None v),
     (if has_mesh v then [scene_remove id; triggers_remove id] else [])
       ++ (if has_material v then [material_dispose id] else [])
       ++ [loader_load id src]).
Proof.
  destruct f, v as [l p [mesh|] [mat|]]; reflexivity.
Qed.

(** [playAnimation_] calls nothing outside the view. *)
Lemma playAnimation__silent (animation : Value) (v : View) :
  effects (playAnimation_ animation v) = [].
Proof.
  destruct v as [[|] p [[[|] t d f r]|] mat], animation as [[s e d' l [|]]|];
    reflexivity.
Qed.

(** Before the load completes the clip is parked. *)
Lemma playAnimation__pending (animation : Value) (v : View) :
  loaded v = false ->
  playAnimation_ animation v = (Ok tt, set_pendingAnimation_ (Some animation) v, []).
Proof.
  intros H. unfold playAnimation_, bind, get. cbn. rewrite H. reflexivity.
Qed.

(** On a loaded view with a mesh that can be animated the clip is applied. *)
Lemma playAnimation__applies (animation : Value) (v : View) (mesh : Mesh) :
  loaded v = true -> modelMesh_ v = Some mesh -> morph mesh = true ->
  playAnimation_ animation v =
    (Ok tt,
     set_modelMesh_
       (Some {| morph := true; time := Some 0%float;
                mduration := duration_of animation;
                directionForward := js_true (forward_of animation);
                frameRange := Some (start_of animation, end_of animation) |}) v,
     []).
Proof.
  intros Hl Hm Hmorph.
  destruct v as [l p mm mat], mesh as [mo t d f r], animation as [[s e d' lp [|]]|];
    cbn in *; simplify_eq; reflexivity.
Qed.

(** ** play, case by case *)

#[local] Arguments playAnimation_ : simpl never.
#[local] Arguments updateAnimation_ : simpl never.
#[local] Arguments setToLastFrame_ : simpl never.
#[local] Arguments getLastTime_ : simpl never.
#[local] Arguments loadModel_ : simpl never.
#[local] Arguments loadJson_callback : simpl never.

Lemma play_resume_eq (m : Model3D) :
  play None m =
    if has_animation (animation_ m) m
    then (Ok this, set_playing_ true m, [])
    else (Throw (AssertionFailed "There is no last animation to play."), m, []).
Proof.
  unfold play, bind, get, assert_. cbn.
  destruct (has_animation (animation_ m) m); reflexivity.
Qed.

Lemma play_empty_eq (m : Model3D) :
  play (Some "") m = (Throw (AssertionFailed "name must be valid."), m, []).
Proof. reflexivity. Qed.

Lemma play_missing_eq (m : Model3D) (name : string) :
  name ≠ "" -> lookup_animation name m = None ->
  play (Some name) m = (Throw (AssertionFailed "Animation does not exist."), m, []).
Proof.
  intros Hn Hl. apply truthy_spec in Hn.
  unfold play, bind, get, assert_. cbn. rewrite Hn. cbn. rewrite Hl. reflexivity.
Qed.

Lemma play_same_eq (m : Model3D) (name : string) (animation : Value) :
  name ≠ "" -> lookup_animation name m = Some animation -> animation_ m = name ->
  play (Some name) m = (Ok this, set_playing_ true m, []).
Proof.
  intros Hn Hl He. apply truthy_spec in Hn. apply String.eqb_eq in He.
  unfold play, bind, get, assert_. cbn. rewrite Hn. cbn. rewrite Hl, He. reflexivity.
Qed.

Lemma play_new_eq (m : Model3D) (name : string) (animation : Value) :
  name ≠ "" -> lookup_animation name m = Some animation -> animation_ m ≠ name ->
  play (Some name) m =
    match playAnimation_ animation (view m) with
    | (Throw e, v, _) => (Throw e, set_view v (set_animation_ name m), [])
    | (Ok _, v, _) =>
        let event := if playing_ m then [] else [dispatch "play"] in
        match stencilView m with
        | None => (Ok this, selected name animation v None m, event)
        | Some sv =>
            match playAnimation_ animation sv with
            | (Throw e, sv', _) =>
                (Throw e, set_stencilView (Some sv') (set_view v (set_animation_ name m)), [])
            | (Ok _, sv', _) =>
                (Ok this, selected name animation v (Some sv') m, event)
            end
        end
    end.
Proof.
  intros Hn Hl He. apply truthy_spec in Hn. apply String.eqb_neq in He.
  unfold play, bind, get, assert_. cbn. rewrite Hn. cbn. rewrite Hl, He.
  destruct m as [src f an ans pr cur pl lo lt v0 sv0]; cbn in *.
  unfold on_view, on_stencilView. cbn.
  pose proof (playAnimation__silent animation v0) as Hv.
  destruct (playAnimation_ animation v0) as [[[[]|e] v] ev];
    unfold effects in Hv; cbn in Hv; subst ev; [|reflexivity].
  cbn. destruct sv0 as [sv|]; cbn.
  - pose proof (playAnimation__silent animation sv) as Hs.
    destruct (playAnimation_ animation sv) as [[[[]|e] sv'] es];
      unfold effects in Hs; cbn in Hs; subst es; [|reflexivity].
    cbn. destruct pl; reflexivity.
  - destruct pl; reflexivity.
Qed.

(** The cases of [play] on a model [m]. *)
Ltac play_cases m opt_name :=
  let name := fresh "name" in
  let a := fresh "animation" in
  let Hn := fresh "Hname" in
  let Hl := fresh "Hlookup" in
  let He := fresh "Hcurrent" in
  destruct opt_name as [name|];
  [ destruct (decide (name = "")) as [->|Hn];
    [ rewrite ?play_empty_eq
    | destruct (lookup_animation name m) as [a|] eqn:Hl;
      [ destruct (decide (animation_ m = name)) as [He|He];
        [ rewrite ?(play_same_eq m name a Hn Hl He)
        | rewrite ?(play_new_eq m name a Hn Hl He) ]
      | rewrite ?(play_missing_eq m name Hn Hl) ] ]
  | rewrite ?play_resume_eq ].

(** The cases of a view taking a clip. *)
Ltac view_cases :=
  repeat match goal with
  | |- context [match playAnimation_ ?a ?v with _ => _ end] =>
      destruct (playAnimation_ a v) as [[[[]|?] ?] ?]
  | |- context [match stencilView ?m with _ => _ end] =>
      destruct (stencilView m) as [?|]
  end.

Lemma play_ok_playing (m : Model3D) (opt_name : option string) :
  result (play opt_name m) = Ok this -> playing_ (state (play opt_name m)) = true.
Proof.
  play_cases m opt_name; try discriminate; try reflexivity.
  - view_cases; cbn; try discriminate; reflexivity.
  - destruct (has_animation (animation_ m) m); [reflexivity | discriminate].
Qed.

(** ** stop *)

Lemma stop_eq (m : Model3D) :
  stop m = (Ok this, set_playing_ false m,
            if playing_ m then [dispatch "stop"] else []).
Proof. unfold stop, bind, get. cbn. destruct (playing_ m); reflexivity. Qed.

(** C7. [stop()] dispatches a [stop] event if and only if the model is
    playing when it is called, always leaves [playing_] false, touches no
    other field and returns [this]. Hence a [stop()] after a successful
    [play] dispatches exactly one [stop] event, and so do two [stop()] in a
    row after it; in general two [stop()] in a row dispatch one event when
    the model was playing and none otherwise. *)
Theorem stop_dispatches_iff_playing (m : Model3D) (opt_name : option string) :
  stop m = (Ok this, set_playing_ false m,
            if playing_ m then [dispatch "stop"] else [])
  ∧ (dispatch "stop" ∈ effects (stop m) <-> playing_ m = true)
  ∧ playing_ (state (stop m)) = false
  ∧ (result (play opt_name m) = Ok this ->
     let m1 := state (play opt_name m) in
     dispatched "stop" (effects (stop m1)) = 1
     ∧ dispatched "stop" (effects (stop m1) ++ effects (stop (state (stop m1)))) = 1)
  ∧ dispatched "stop" (effects (stop m) ++ effects (stop (state (stop m))))
    = (if playing_ m then 1 else 0).
Proof.
  split; [apply stop_eq|]. split; [|split; [|split]].
  - rewrite stop_eq. unfold effects. cbn. destruct (playing_ m).
    + split; [done | intros _; apply list_elem_of_singleton; done].
    + split; [intros H; inversion H | done].
  - rewrite stop_eq. reflexivity.
  - intros Hok m1. pose proof (play_ok_playing m opt_name Hok) as Hp.
    fold m1 in Hp. rewrite !stop_eq. unfold effects, state. cbn.
    rewrite Hp. split; reflexivity.
  - rewrite !stop_eq. unfold effects, state. cbn.
    destruct (playing_ m); reflexivity.
Qed.

(** ** setAnimation *)

(** The assignment [this.animations_[name] = animation]: afterwards the
    read of the name gives the clip, under every name. *)
Lemma assign_animation_lookup (name : string) (animation : Animation) (m : Model3D) :
  lookup_animation name (assign_animation name animation m) = Some (Clip animation).
Proof.
  unfold assign_animation, lookup_animation.
  destruct (animations_ m !! name) eqn:Hl,
    (String.eqb name "__proto__") eqn:He; cbn [animations_ set_animations_
      set_animations_proto_ animations_proto_];
    rewrite ?lookup_insert_eq, ?Hl, ?He; done.
Qed.


(** The clips stored under other names stay. *)
Lemma assign_animation_others (name other : string) (animation : Animation)
    (m : Model3D) :
  other ≠ name ->
  animations_ (assign_animation name animation m) !! other = animations_ m !! other.
Proof.
  intros Hn. unfold assign_animation.
  destruct (animations_ m !! name), (String.eqb name "__proto__"); cbn;
    by rewrite ?lookup_insert_ne.
Qed.

(** It writes no other field. *)
Lemma assign_animation_fields (name : string) (animation : Animation) (m : Model3D) :
  let m' := assign_animation name animation m in
  modelSrc_ m' = modelSrc_ m ∧ format_ m' = format_ m ∧ animated_ m' = animated_ m
  ∧ animation_ m' = animation_ m ∧ playing_ m' = playing_ m
  ∧ looping_ m' = looping_ m ∧ lastTime_ m' = lastTime_ m
  ∧ view m' = view m ∧ stencilView m' = stencilView m.
Proof.
  unfold assign_animation.
  by destruct (animations_ m !! name), (String.eqb name "__proto__").
Qed.

(** A name that [in] finds, it finds after any assignment. *)
Lemma assign_animation_keeps_names (name other : string) (animation : Animation)
    (m : Model3D) :
  has_animation other m = true ->
  has_animation other (assign_animation name animation m) = true.
Proof.
  destruct (decide (other = name)) as [->|Hne].
  { intros _. unfold has_animation. by rewrite assign_animation_lookup. }
  pose proof (assign_animation_others name other animation m Hne) as Hown.
  unfold has_animation at 1. unfold lookup_animation. intros H.
  destruct (animations_ m !! other) as [a|] eqn:Hl.
  { apply has_animation_own. rewrite Hown. by eexists. }
  unfold has_animation, lookup_animation. rewrite Hown.
  destruct (String.eqb other "__proto__"); [done|].
  unfold assign_animation.
  destruct (animations_ m !! name), (String.eqb name "__proto__"); cbn; try done.
  destruct (animations_proto_ m); [done|].
  destruct (bool_decide (other ∈ Object_prototype_methods));
    [by destruct (bool_decide (other ∈ clip_properties)) | done].
Qed.

(** Assignments under different names commute, and under one name the
    last one wins. *)
Lemma assign_animation_comm (name1 name2 : string) (a1 a2 : Animation)
    (m : Model3D) :
  name1 ≠ name2 ->
  assign_animation name2 a2 (assign_animation name1 a1 m)
  = assign_animation name1 a1 (assign_animation name2 a2 m).
Proof.
  intros Hne. unfold assign_animation.
  destruct (animations_ m !! name1) eqn:H1, (animations_ m !! name2) eqn:H2,
    (String.eqb name1 "__proto__") eqn:E1, (String.eqb name2 "__proto__") eqn:E2;
    try (apply String.eqb_eq in E1, E2; congruence);
    cbn [animations_ set_animations_ set_animations_proto_];
    rewrite ?lookup_insert_ne, ?H1, ?H2 by done;
    unfold set_animations_, set_animations_proto_; cbn;
    try reflexivity; f_equal; by apply insert_insert_ne.
Qed.

Lemma assign_animation_again (name : string) (a1 a2 : Animation) (m : Model3D) :
  assign_animation name a2 (assign_animation name a1 m) = assign_animation name a2 m.
Proof.
  unfold assign_animation.
  destruct (animations_ m !! name) eqn:H1, (String.eqb name "__proto__") eqn:E1;
    cbn [animations_ set_animations_ set_animations_proto_];
    rewrite ?lookup_insert_eq, ?H1;
    unfold set_animations_, set_animations_proto_; cbn;
    try reflexivity; f_equal; by apply insert_insert_eq.
Qed.

(** [setAnimation] in closed form. *)
Lemma setAnimation_run (m : Model3D) (name : string) (start end_ seconds : float)
    (opt_loop opt_forward : option bool) :
  setAnimation name start end_ seconds opt_loop opt_forward m
  = if truthy name && js_ge0 start && js_ge0 end_ && js_ge0 seconds
    then (Ok this,
          assign_animation name
            {| start := start; end_ := end_;
               duration := (seconds * 1000)%float;
               loop := default true opt_loop;
               forward := default true opt_forward |} m, [])
    else (Throw (AssertionFailed
                   (if negb (truthy name) then "name must be valid."
                    else if negb (js_ge0 start) then "start must be >= 0."
                    else if negb (js_ge0 end_) then "end must be >= 0."
                    else "seconds must be >= 0.")), m, []).
Proof.
  unfold setAnimation, bind, assert_.
  destruct (truthy name); cbn; [|done].
  destruct (js_ge0 start); cbn; [|done].
  destruct (js_ge0 end_); cbn; [|done].
  destruct (js_ge0 seconds); cbn; [|done].
  by destruct opt_loop, opt_forward.
Qed.

Lemma setAnimation_accepts (m : Model3D) (name : string) (start end_ seconds : float)
    (opt_loop opt_forward : option bool) :
  name ≠ "" ->
  (0 <=? start)%float = true -> (0 <=? end_)%float = true ->
  (0 <=? seconds)%float = true ->
  setAnimation name start end_ seconds opt_loop opt_forward m
  = (Ok this,
     assign_animation name
       {| start := start; end_ := end_;
          duration := (seconds * 1000)%float;
          loop := default true opt_loop;
          forward := default true opt_forward |} m, []).
Proof.
  intros Hn Hs He Hd. rewrite setAnimation_run.
  apply truthy_spec in Hn. unfold js_ge0. by rewrite Hn, Hs, He, Hd.
Qed.

(** The product is the one of the doubles: it rounds. *)
Lemma setAnimation_rounds :
  lookup_animation "walk"
    (state (setAnimation "walk" 0 30 1.001 None None (fresh false None)))
  = Some (Clip {| start := 0; end_ := 30; duration := 1000.9999999999999;
                  loop := true; forward := true |})
  ∧ lookup_animation "walk"
      (state (setAnimation "walk" 0 30 infinity None None (fresh false None)))
    = Some (Clip {| start := 0; end_ := 30; duration := infinity;
                    loop := true; forward := true |}).
Proof. split; reflexivity. Qed.


(** ** setModelSrc *)

Lemma setModelSrc_eq (m : Model3D) (path : string) :
  path ≠ "" ->
  (path = modelSrc_ m -> setModelSrc path m = (Ok this, m, []))
  ∧ (path ≠ modelSrc_ m ->
     setModelSrc path m =
       (Ok this, reloading path m,
        (if playing_ m then [dispatch "stop"] else [])
          ++ [dispatch "changeModelSrc"]
          ++ reload_calls Primary path (view m)
          ++ match stencilView m with
             | Some sv => reload_calls Stencil path sv
             | None => []
             end)).
Proof.
  intros Hp. apply truthy_spec in Hp. split; intros He.
  - unfold setModelSrc, bind, get, assert_. rewrite Hp. cbn.
    symmetry in He. apply String.eqb_eq in He. rewrite He. reflexivity.
  - assert (modelSrc_ m ≠ path) as He' by congruence.
    apply String.eqb_neq in He'.
    destruct m as [src f an ans pr cur pl lo lt v0 sv0]; cbn in *.
    unfold setModelSrc, bind, get, assert_. rewrite Hp. cbn. rewrite He'.
    unfold on_view, on_stencilView, reloading, reload_calls.
    destruct pl; cbn; rewrite loadModel__eq;
      (destruct sv0 as [sv|]; cbn; [rewrite loadModel__eq|]);
      cbn; rewrite <- ?app_assoc; cbn; rewrite ?app_nil_r; reflexivity.
Qed.

(** C5. For a path that is not empty: [setModelSrc(path)] with the path the
    model has changes nothing and calls nothing; with another path it
    returns [this] after, in this order, storing the path, stopping (a
    [stop] event when the model was playing), dispatching [changeModelSrc],
    and reloading the primary view and then the stencil view when there is
    one. *)
Theorem setModelSrc_reloads_on_change (m : Model3D) (path : string) :
  path ≠ "" ->
  (path = modelSrc_ m -> setModelSrc path m = (Ok this, m, []))
  ∧ (path ≠ modelSrc_ m ->
     setModelSrc path m =
       (Ok this, reloading path m,
        (if playing_ m then [dispatch "stop"] else [])
          ++ [dispatch "changeModelSrc"]
          ++ reload_calls Primary path (view m)
          ++ match stencilView m with
             | Some sv => reload_calls Stencil path sv
             | None => []
             end)).
Proof. apply setModelSrc_eq. Qed.

(** ** play again, and the play event *)

(** C6. For a registered name (such a name is not empty, see
    [registered_names_not_empty]), a second [play(name)] right after a first
    one returns [this] and only sets [playing_]: the model is the one the
    first call left, with [playing_] true; nothing is dispatched, [lastTime_]
    is not reset and the views, which are part of the model, are not handed
    the clip again. When the first call returned, the second changes
    nothing at all. *)
Theorem play_again_only_resumes (m : Model3D) (name : string) :
  name ≠ "" -> is_Some (animations_ m !! name) ->
  let m1 := state (play (Some name) m) in
  play (Some name) m1 = (Ok this, set_playing_ true m1, [])
  ∧ lastTime_ (state (play (Some name) m1)) = lastTime_ m1
  ∧ view (state (play (Some name) m1)) = view m1
  ∧ stencilView (state (play (Some name) m1)) = stencilView m1
  ∧ (result (play (Some name) m) = Ok this -> state (play (Some name) m1) = m1).
Proof.
  intros Hn [a Hl] m1. apply lookup_animation_own in Hl.
  assert (lookup_animation name m1 = Some (Clip a) ∧ animation_ m1 = name
          ∧ (result (play (Some name) m) = Ok this -> set_playing_ true m1 = m1))
    as (Hl1 & He1 & Hid).
  { rewrite <- Hl. subst m1. destruct (decide (animation_ m = name)) as [He|He].
    - rewrite (play_same_eq m name (Clip a) Hn Hl He). unfold state. cbn. done.
    - rewrite (play_new_eq m name (Clip a) Hn Hl He). unfold result, state.
      view_cases; cbn; done. }
  rewrite (play_same_eq m1 name (Clip a) Hn Hl1 He1). unfold state. cbn.
  repeat split; done.
Qed.

(** C9. [play] dispatches a [play] event only when it is given a name other
    than the selected one while the model is not playing, and then, when it
    returns, it dispatches exactly one; [play()] and [play(name)] with the
    selected name dispatch nothing and call nothing, whatever [playing_]
    was. [play] never dispatches anything else. *)
Theorem play_event_only_on_new_selection (m : Model3D) (opt_name : option string) :
  (dispatch "play" ∈ effects (play opt_name m) ->
   ∃ name, opt_name = Some name ∧ name ≠ animation_ m ∧ playing_ m = false)
  ∧ effects (play None m) = []
  ∧ effects (play (Some (animation_ m)) m) = []
  ∧ (effects (play opt_name m) = [] ∨ effects (play opt_name m) = [dispatch "play"])
  ∧ (∀ name, opt_name = Some name -> name ≠ animation_ m -> playing_ m = false ->
     result (play opt_name m) = Ok this ->
     effects (play opt_name m) = [dispatch "play"]).
Proof.
  split; [|split; [|split; [|split]]].
  - play_cases m opt_name; unfold effects; cbn; try (intros H; by inversion H).
    + view_cases; cbn; try (intros H; by inversion H);
        (destruct (playing_ m) eqn:Hp; [intros H; by inversion H|]);
        intros _; exists name; done.
    + destruct (has_animation (animation_ m) m); intros H; by inversion H.
  - rewrite play_resume_eq. by destruct (has_animation (animation_ m) m).
  - destruct (decide (animation_ m = "")) as [->|Hn]; [reflexivity|].
    destruct (lookup_animation (animation_ m) m) as [a|] eqn:Hl.
    + by rewrite (play_same_eq m _ a Hn Hl eq_refl).
    + by rewrite (play_missing_eq m _ Hn Hl).
  - play_cases m opt_name; unfold effects; cbn; try (by left).
    + view_cases; cbn; try (by left); destruct (playing_ m); (by left) || (by right).
    + destruct (has_animation (animation_ m) m); by left.
  - intros name -> He Hp.
    destruct (decide (name = "")) as [->|Hn]; [discriminate|].
    destruct (lookup_animation name m) as [a|] eqn:Hl.
    + rewrite (play_new_eq m name a Hn Hl) by congruence.
      unfold result, effects. rewrite Hp.
      view_cases; cbn; try discriminate; done.
    + rewrite (play_missing_eq m name Hn Hl). discriminate.
Qed.

(** ** What each call leaves alone *)

Lemma assign_animation_cases (name : string) (animation : Animation) (m : Model3D) :
  assign_animation name animation m
  = set_animations_ (<[name := animation]> (animations_ m)) m
  ∨ (name = "__proto__"
     ∧ assign_animation name animation m = set_animations_proto_ (Some animation) m).
Proof.
  unfold assign_animation. destruct (animations_ m !! name); [by left|].
  destruct (String.eqb name "__proto__") eqn:He; [right | by left].
  by apply String.eqb_eq in He.
Qed.

Lemma setAnimation_state (m : Model3D) (name : string) (start end_ seconds : float)
    (opt_loop opt_forward : option bool) :
  let m' := state (setAnimation name start end_ seconds opt_loop opt_forward m) in
  m' = m
  ∨ (name ≠ ""
     ∧ result (setAnimation name start end_ seconds opt_loop opt_forward m) = Ok this
     ∧ m' = assign_animation name
              {| start := start; end_ := end_;
                 duration := (seconds * 1000)%float;
                 loop := default true opt_loop;
                 forward := default true opt_forward |} m).
Proof.
  cbn zeta. rewrite setAnimation_run. unfold state, result.
  destruct (truthy name) eqn:Hn; cbn; [|by left].
  destruct (js_ge0 start && js_ge0 end_ && js_ge0 seconds); cbn; [|by left].
  right. split; [by apply truthy_spec | done].
Qed.

Lemma setModelSrc_state (m : Model3D) (path : string) :
  state (setModelSrc path m) = m ∨ state (setModelSrc path m) = reloading path m.
Proof.
  destruct (decide (path = "")) as [->|Hp]; [by left|].
  destruct (setModelSrc_eq m path Hp) as [Hsame Hnew].
  destruct (decide (path = modelSrc_ m)) as [He|He].
  - left. by rewrite Hsame.
  - right. by rewrite Hnew.
Qed.

(** A view that fails to take a clip fails with a [TypeError]. *)
Lemma playAnimation__throws (animation : Value) (v : View) (e : Error) :
  result (playAnimation_ animation v) = Throw e -> ∃ message, e = TypeError message.
Proof.
  destruct v as [[|] p [[[|] t d f r]|] mat], animation as [[s e' d' l [|]]|];
    unfold result; cbn; intros H; try discriminate; injection H as <-; by eexists.
Qed.

(** The model that [play] leaves: the one it found (a failed assertion),
    that one playing (a resumed or repeated selection), or one with the new
    name selected; in the last case either [play] returned and the loop flag
    is the one read from the value found under the name, or a view threw a
    [TypeError]. *)
Lemma play_state (m : Model3D) (opt_name : option string) :
  let m' := state (play opt_name m) in
  m' = m
  ∨ (m' = set_playing_ true m ∧ has_animation (animation_ m) m = true)
  ∨ (∃ name animation,
       opt_name = Some name ∧ name ≠ ""
       ∧ lookup_animation name m = Some animation
       ∧ animations_ m' = animations_ m
       ∧ animations_proto_ m' = animations_proto_ m
       ∧ animation_ m' = name
       ∧ ((result (play opt_name m) = Ok this
           ∧ playing_ m' = true ∧ looping_ m' = loop_of animation)
          ∨ (playing_ m' = playing_ m ∧ looping_ m' = looping_ m
             ∧ ∃ message, result (play opt_name m) = Throw (TypeError message)))).
Proof.
  play_cases m opt_name; unfold state, result; cbn.
  - by left.
  - right; left. split; [done|]. unfold has_animation. by rewrite Hcurrent, Hlookup.
  - right; right. exists name, animation.
    do 3 (split; [done|]).
    pose proof (playAnimation__throws animation (view m)) as Hv.
    destruct (playAnimation_ animation (view m)) as [[[[]|e] v] ev];
      unfold result in Hv; cbn in Hv.
    + destruct (stencilView m) as [sv|]; cbn.
      * pose proof (playAnimation__throws animation sv) as Hs.
        destruct (playAnimation_ animation sv) as [[[[]|e] sv'] es];
          unfold result in Hs; cbn in Hs; cbn.
        -- do 3 (split; [done|]). by left.
        -- do 3 (split; [done|]). right. do 2 (split; [done|]).
           destruct (Hs e eq_refl) as [msg ->]. by eexists.
      * do 3 (split; [done|]). by left.
    + cbn. do 3 (split; [done|]). right. do 2 (split; [done|]).
      destruct (Hv e eq_refl) as [msg ->]. by eexists.
  - by left.
  - destruct (has_animation (animation_ m) m) eqn:Hh; cbn.
    + right; left. done.
    + by left.
Qed.

Lemma stop_same_selection (m : Model3D) : same_selection m (state (stop m)).
Proof. rewrite stop_eq. by repeat split. Qed.

Lemma setModelSrc_same_selection (m : Model3D) (path : string) :
  same_selection m (state (setModelSrc path m)).
Proof.
  destruct (setModelSrc_state m path) as [-> | ->]; by repeat split.
Qed.

(** A call that returns [this] leaves the model the method left. *)
Lemma then_ret_state {A} (c : ST Model3D A) (m : Model3D) :
  state ((c;; ret tt) m) = state (c m).
Proof.
  unfold bind, ret, state. by destruct (c m) as [[[a|e] m'] es].
Qed.

Lemma then_ret_result {A} (c : ST Model3D A) (m : Model3D) (e : Error) :
  result ((c;; ret tt) m) = Throw e <-> result (c m) = Throw e.
Proof.
  unfold bind, ret, result.
  destruct (c m) as [[[a|e'] m'] es]; cbn; split; intros H; by simplify_eq.
Qed.

Lemma initialize_fields (options : Options) (stencils : bool) (m : Model3D) :
  initialize options stencils = Ok m ->
  animations_ m = ∅ ∧ animation_ m = "" ∧ playing_ m = false.
Proof.
  unfold initialize. destruct (negb (truthy (modelSrc options))); [done|].
  destruct (format options) as [f|]; [destruct (String.eqb f "json")|];
    intros H; by simplify_eq.
Qed.

Lemma load_views_same_selection (m : Model3D) :
  same_selection m (state (load_views m)).
Proof.
  destruct m as [src [] an ans pr cur pl lo lt [l p [mesh|] [mat|]] [sv|]];
    try destruct sv as [l' p' [mesh'|] [mat'|]]; by repeat split.
Qed.

Lemma create_fields (options : Options) (stencils : bool) (m : Model3D) :
  create options stencils = Ok m ->
  animations_ m = ∅ ∧ animation_ m = "" ∧ playing_ m = false.
Proof.
  unfold create. destruct (initialize options stencils) as [m0|e] eqn:Hi; [|done].
  intros H. simplify_eq. apply initialize_fields in Hi as (Ha & Hc & Hp).
  destruct (load_views_same_selection m0) as (-> & _ & -> & _ & Hpl).
  do 2 (split; [done|]). destruct (playing_ (state (load_views m0))); [|done].
  rewrite <- Hp. symmetry. by apply Hpl.
Qed.

Section Invariants.

Variable updateAnimation : Mesh -> float -> Mesh.

Lemma update_same_selection (m : Model3D) (deltaTime : float) :
  same_selection m (state (update updateAnimation deltaTime m)).
Proof.
  destruct m as [src f an ans pr cur pl lo lt v0 sv0].
  unfold update, bind, get, state, on_view, on_stencilView, same_selection.
  cbn. destruct pl; cbn; [|done].
  destruct (updateAnimation_ updateAnimation Primary _ v0) as [[[[]|?] ?] ?];
    cbn; [|done].
  destruct sv0 as [sv|]; cbn;
    [destruct (updateAnimation_ updateAnimation Stencil _ sv) as [[[[]|?] ?] ?];
       cbn; [|done] |];
    (destruct lo as [[|]|]; cbn; [done | |]);
    (destruct (getLastTime_ _) as [[[?|?] ?] ?]; cbn; [|done]);
    (destruct (js_lt _ _); cbn; [|done]);
    (destruct (setToLastFrame_ updateAnimation Primary _) as [[[[]|?] ?] ?];
       cbn; [|done]);
    try done;
    destruct (setToLastFrame_ updateAnimation Stencil _) as [[[[]|?] ?] ?];
    cbn; done.
Qed.

Lemma loader_same_selection (m : Model3D) (id : ViewId) (built : Mesh)
    (materials : list Material) :
  same_selection m (state (exec updateAnimation (loader_answers id built materials) m)).
Proof.
  destruct m as [src f an ans pr cur pl lo lt v0 sv0], id;
    unfold exec, bind, get, state, on_view, on_stencilView, same_selection; cbn.
  - destruct (loadJson_callback _ _ _ _ v0) as [[[[]|?] ?] ?]; cbn; done.
  - destruct sv0 as [sv|]; cbn; [|done].
    destruct (loadJson_callback _ _ _ _ sv) as [[[[]|?] ?] ?]; cbn; done.
Qed.

Lemma exec_same_selection (m : Model3D) (c : Call) :
  match c with
  | call_setAnimation _ _ _ _ _ _ | call_play _ => True
  | _ => same_selection m (state (exec updateAnimation c m))
  end.
Proof.
  destruct c as [| |  | path | deltaTime | id built materials]; try done.
  - cbn [exec]. rewrite then_ret_state. apply stop_same_selection.
  - cbn [exec]. rewrite then_ret_state. apply setModelSrc_same_selection.
  - apply update_same_selection.
  - apply loader_same_selection.
Qed.

Lemma reachable_run (m : Model3D) (cs : list Call) :
  reachable updateAnimation m -> reachable updateAnimation (run updateAnimation cs m).
Proof.
  revert m. induction cs as [|c cs IH]; intros m Hm; [done|].
  cbn. apply IH. by apply reachable_exec.
Qed.

(** No clip is stored under the empty name: [setAnimation] refuses it. *)
Lemma registered_names_not_empty (m : Model3D) :
  reachable updateAnimation m -> animations_ m !! "" = None.
Proof.
  induction 1 as [options stencils m Hc | c m Hr IH].
  - apply create_fields in Hc as (-> & _). apply lookup_empty.
  - pose proof (exec_same_selection m c) as Hsame.
    destruct c as [name s e secs ol ofw | opt_name | | | |];
      try (by destruct Hsame as (-> & _)).
    + cbn [exec]. rewrite then_ret_state.
      destruct (setAnimation_state m name s e secs ol ofw) as [-> | (Hn & _ & ->)];
        [done|].
      by rewrite assign_animation_others.
    + cbn [exec]. rewrite then_ret_state.
      destruct (play_state m opt_name)
        as [-> | [[-> Hs] | (name & a & _ & _ & _ & -> & _)]]; done.
Qed.

(** The selected name is empty or a name that [in] finds in [animations_],
    a stored clip or an inherited property; and a model that plays has a
    selected name that [in] finds. *)
Lemma selected_name_found (m : Model3D) :
  reachable updateAnimation m ->
  (animation_ m = "" ∨ has_animation (animation_ m) m = true)
  ∧ (playing_ m = true -> has_animation (animation_ m) m = true).
Proof.
  induction 1 as [options stencils m Hc | c m Hr [IH1 IH2]].
  - apply create_fields in Hc as (_ & -> & ->). split; [by left | done].
  - pose proof (exec_same_selection m c) as Hsame.
    destruct c as [name s e secs ol ofw | opt_name | | | |];
      try (destruct Hsame as (Ha & Hpr & -> & _ & Hpl);
           rewrite (has_animation_same _ m _ Ha Hpr); by auto).
    + cbn [exec]. rewrite then_ret_state.
      destruct (setAnimation_state m name s e secs ol ofw) as [-> | (Hn & _ & ->)];
        [done|].
      destruct (assign_animation_fields name
                  {| start := s; end_ := e; duration := (secs * 1000)%float;
                     loop := default true ol; forward := default true ofw |} m)
        as (_ & _ & _ & -> & -> & _).
      split.
      * destruct IH1 as [? | IH1]; [by left | right].
        by apply assign_animation_keeps_names.
      * intros Hp. by apply assign_animation_keeps_names, IH2.
    + cbn [exec]. rewrite then_ret_state.
      destruct (play_state m opt_name)
        as [-> | [[-> Hs] | (name & a & _ & _ & Hl & Ha & Hpr & Hc & _)]];
        [done | by split; [right|] |].
      rewrite Hc, (has_animation_same name m _ Ha Hpr).
      unfold has_animation. rewrite Hl. by split; [right|].
Qed.

Lemma selection_consistent_same (m m' : Model3D) :
  same_selection m m' -> selection_consistent m -> selection_consistent m'.
Proof.
  intros (Ha & Hpr & Hc & Hl & Hp) (H0 & Hreg & Hloop & Hplay).
  unfold selection_consistent, animation_registered in *.
  rewrite Ha, Hc, Hl. repeat split; auto.
Qed.

(** Where no [play] names a property that [animations_] only inherits, the
    selected name is empty or the name of a stored clip. *)
Lemma stored_names_registered (m : Model3D) :
  reachable_playing_stored_names updateAnimation m ->
  animations_ m !! "" = None ∧ animation_registered m.
Proof.
  induction 1 as [options stencils m Hc | c m Hr [IH0 IH] Hk].
  - apply create_fields in Hc as (Ha & Hc & _).
    unfold animation_registered. rewrite Ha, Hc. split; [apply lookup_empty | by left].
  - pose proof (exec_same_selection m c) as Hsame.
    destruct c as [name s e secs ol ofw | opt_name | | | |];
      try (destruct Hsame as (Ha & _ & Hc & _);
           unfold animation_registered; by rewrite Ha, Hc).
    + cbn [exec]. rewrite then_ret_state.
      destruct (setAnimation_state m name s e secs ol ofw) as [-> | (Hn & _ & ->)];
        [done|].
      destruct (assign_animation_cases name
                  {| start := s; end_ := e; duration := (secs * 1000)%float;
                     loop := default true ol; forward := default true ofw |} m)
        as [-> | [_ ->]]; [|done].
      unfold animation_registered. cbn. split; [by rewrite lookup_insert_ne|].
      destruct IH as [? | IH]; [by left | right].
      apply lookup_insert_is_Some'. by right.
    + cbn [exec]. rewrite then_ret_state.
      destruct (play_state m opt_name)
        as [-> | [[-> Hs] | (name & a & -> & _ & Hl & Ha & _ & Hc & _)]];
        [done | done |].
      cbn in Hk. unfold only_inherited, has_animation in Hk. rewrite Hl in Hk.
      cbn in Hk. apply bool_decide_eq_false in Hk.
      unfold animation_registered. rewrite Ha, Hc. split; [done | right].
      by destruct (animations_ m !! name).
Qed.

(** The runs that keep the selection in step keep the invariants of the
    specification. *)
Lemma keeping_selection_consistent (m : Model3D) :
  reachable_keeping_selection updateAnimation m -> selection_consistent m.
Proof.
  induction 1 as [options stencils m Hc | c m Hr IH Hk].
  - apply create_fields in Hc as (Ha & Hc & Hp).
    unfold selection_consistent, animation_registered. rewrite Ha, Hp.
    split; [apply lookup_empty|]. split; [by left|]. split; [|done].
    intros a. by rewrite lookup_empty.
  - pose proof (exec_same_selection m c) as Hsame.
    destruct c as [name s e secs ol ofw | opt_name | | | |];
      try (by eapply selection_consistent_same).
    + cbn [exec]. rewrite then_ret_state.
      destruct (setAnimation_state m name s e secs ol ofw) as [-> | (Hn & Hok & ->)];
        [done|].
      destruct IH as (H0 & Hreg & Hloop & Hplay). cbn in Hk. specialize (Hk Hok).
      destruct (assign_animation_cases name
                  {| start := s; end_ := e; duration := (secs * 1000)%float;
                     loop := default true ol; forward := default true ofw |} m)
        as [-> | [_ ->]]; [|done].
      unfold selection_consistent, animation_registered. cbn.
      split; [by rewrite lookup_insert_ne|]. split; [|split].
      * destruct Hreg as [? | Hreg]; [by left | right].
        apply lookup_insert_is_Some'. by right.
      * intros a. destruct (decide (name = animation_ m)) as [He|He].
        -- rewrite He, lookup_insert_eq. intros [= <-]. cbn. symmetry. by apply Hk.
        -- rewrite lookup_insert_ne by done. apply Hloop.
      * intros Hp. apply lookup_insert_is_Some'. right. by apply Hplay.
    + cbn [exec]. rewrite then_ret_state.
      destruct IH as (H0 & Hreg & Hloop & Hplay). destruct Hk as [Hk Hown].
      cbn in Hown.
      destruct (play_state m opt_name)
        as [-> | [[-> Hs] | (name & a & -> & _ & Hl & Ha & _ & Hc & Hout)]];
        [done | |].
      * assert (is_Some (animations_ m !! animation_ m)) as Hsel.
        { destruct Hreg as [He | ?]; [|done].
          unfold has_animation in Hs. rewrite He in Hs.
          by rewrite (lookup_animation_empty m H0) in Hs. }
        by repeat split.
      * destruct Hout as [(_ & _ & Hlo) | (_ & _ & msg & Hthrow)];
          [|by destruct (Hk msg)].
        unfold only_inherited, has_animation in Hown.
        rewrite Hl in Hown. cbn in Hown. apply bool_decide_eq_false in Hown.
        destruct (animations_ m !! name) as [clip|] eqn:Hclip; [|done].
        rewrite (lookup_animation_own name m clip Hclip) in Hl.
        injection Hl as <-. cbn [loop_of] in Hlo.
        unfold selection_consistent, animation_registered.
        rewrite Ha, Hc, Hlo, Hclip.
        split; [done|]. split; [by right|].
        split; [by intros a' [= <-] | by eexists].
Qed.

(** C2, amended. In every state reached from the constructor by calls in
    which [setAnimation] never gave the selected animation another loop
    flag, no [play] was cut short by a [TypeError] of a view, and no [play]
    named a property that [animations_] only inherits: while [playing_] is
    true, [looping_] is the loop flag of the clip stored in [animations_]
    under the selected name. *)
Theorem looping_mirrors_clip_kept (m : Model3D) :
  reachable_keeping_selection updateAnimation m -> looping_mirrors_clip m.
Proof.
  intros Hr. apply keeping_selection_consistent in Hr as (_ & _ & Hloop & Hplay).
  intros Hp. destruct (Hplay Hp) as [a Ha]. exists a. split; [done|].
  by apply Hloop.
Qed.

End Invariants.


(** ** The tick *)

Section Ticks.

Variable updateAnimation : Mesh -> float -> Mesh.

Lemma setToLastFrame__eq (id : ViewId) (v : View) :
  has_mesh v = true ->
  setToLastFrame_ updateAnimation id v =
    (Ok tt, snapped updateAnimation v,
     if has_morph_mesh v then [dirty id] else []).
Proof.
  destruct v as [l p [[[|] t d f r]|] mat]; intros H; try discriminate;
    reflexivity.
Qed.

(** A view without a mesh cannot be snapped: reading the mesh throws. *)
Lemma setToLastFrame__throws (id : ViewId) (v : View) :
  has_mesh v = false ->
  setToLastFrame_ updateAnimation id v =
    (Throw (TypeError "this.modelMesh_ is null or undefined"), v, []).
Proof.
  destruct v as [l p [mesh|] mat]; intros H; try discriminate; reflexivity.
Qed.

Lemma update_idle (deltaTime : float) (m : Model3D) :
  playing_ m = false -> update updateAnimation deltaTime m = (Ok tt, m, []).
Proof.
  intros H. unfold update, bind, get. cbn. rewrite H. reflexivity.
Qed.

(** A tick of a model that plays a clip once: it advances the views and
    samples the primary one, and then either snaps and stops or records
    the sampled time. *)
Lemma update_once_eq (deltaTime : float) (m : Model3D) :
  playing_ m = true -> js_true (looping_ m) = false ->
  update updateAnimation deltaTime m =
    match advance_and_sample updateAnimation deltaTime m with
    | (Ok lastTime, m1, es) =>
        if js_lt lastTime (lastTime_ m)
        then let '(r, m2, es') := snap_and_stop updateAnimation m1 in
             (r, m2, es ++ es')
        else (Ok tt, set_lastTime_ lastTime m1, es)
    | (Throw e, m1, es) => (Throw e, m1, es)
    end.
Proof.
  intros Hp Hl. unfold update, advance_and_sample, bind, get. cbn.
  rewrite Hp, Hl. cbn.
  destruct (on_view (updateAnimation_ _ _ _) m) as [[[[]|e] m1] e1];
    [|reflexivity].
  destruct (on_stencilView (updateAnimation_ _ _ _) m1) as [[[[]|e] m2] e2];
    [|reflexivity].
  destruct (on_view getLastTime_ m2) as [[[t|e] m3] e3]; [|reflexivity].
  destruct (js_lt t (lastTime_ m)).
  - unfold snap_and_stop, bind.
    destruct (on_view (setToLastFrame_ _ _) m3) as [[[[]|e] m4] e4].
    + destruct (on_stencilView (setToLastFrame_ _ _) m4) as [[[[]|e] m5] e5].
      * rewrite stop_eq. destruct (playing_ m5); cbn;
          by rewrite ?app_nil_r, <- ?app_assoc.
      * by rewrite <- ?app_assoc.
    + by rewrite <- ?app_assoc.
  - cbn. by rewrite !app_nil_r.
Qed.

(** Snapping and stopping, when the primary view and the stencil view, if
    there is one, hold a mesh. *)
Lemma snap_and_stop_eq (m : Model3D) :
  has_mesh (view m) = true ->
  match stencilView m with Some sv => has_mesh sv = true | None => True end ->
  snap_and_stop updateAnimation m =
    (Ok tt,
     set_playing_ false
       (set_stencilView (snapped updateAnimation <$> stencilView m)
          (set_view (snapped updateAnimation (view m)) m)),
     (if has_morph_mesh (view m) then [dirty Primary] else [])
       ++ match stencilView m with
          | Some sv => if has_morph_mesh sv then [dirty Stencil] else []
          | None => []
          end
       ++ (if playing_ m then [dispatch "stop"] else [])).
Proof.
  destruct m as [src f an ans pr cur pl lo lt v0 sv0]; cbn. intros Hv Hs.
  unfold snap_and_stop, bind, on_view, on_stencilView. cbn.
  rewrite (setToLastFrame__eq Primary v0 Hv). cbn.
  destruct sv0 as [sv|]; cbn.
  - rewrite (setToLastFrame__eq Stencil sv Hs). cbn.
    destruct pl; cbn; by rewrite ?app_nil_r.
  - destruct pl; cbn; by rewrite ?app_nil_r.
Qed.

(** Snapping when the stencil view has no mesh yet: the primary view is
    snapped, the stencil view throws, and [stop] is not reached. *)
Lemma snap_and_stop_throws (m : Model3D) (sv : View) :
  has_mesh (view m) = true -> stencilView m = Some sv -> has_mesh sv = false ->
  snap_and_stop updateAnimation m =
    (Throw (TypeError "this.modelMesh_ is null or undefined"),
     set_stencilView (Some sv) (set_view (snapped updateAnimation (view m)) m),
     if has_morph_mesh (view m) then [dirty Primary] else []).
Proof.
  destruct m as [src f an ans pr cur pl lo lt v0 sv0]; cbn. intros Hv -> Hs.
  unfold snap_and_stop, bind, on_view, on_stencilView. cbn.
  rewrite (setToLastFrame__eq Primary v0 Hv). cbn.
  rewrite (setToLastFrame__throws Stencil sv Hs). cbn.
  by rewrite app_nil_r.
Qed.

(** The views are the only fields that advancing and sampling touch. *)
Lemma advance_and_sample_fields (deltaTime : float) (m : Model3D) :
  let m1 := state (advance_and_sample updateAnimation deltaTime m) in
  same_selection m m1 ∧ playing_ m1 = playing_ m ∧ lastTime_ m1 = lastTime_ m.
Proof.
  destruct m as [src f an ans pr cur pl lo lt v0 sv0].
  unfold advance_and_sample, bind, state, on_view, on_stencilView, same_selection.
  cbn.
  destruct (updateAnimation_ updateAnimation Primary _ v0) as [[[[]|?] ?] ?];
    cbn; [|done].
  destruct sv0 as [sv|]; cbn.
  - destruct (updateAnimation_ updateAnimation Stencil _ sv) as [[[[]|?] ?] ?];
      cbn; [|done].
    destruct (getLastTime_ _) as [[[?|?] ?] ?]; cbn; done.
  - destruct (getLastTime_ _) as [[[?|?] ?] ?]; cbn; done.
Qed.

(** The tick of a model that plays a clip once, when the views hold a mesh
    at the time of the sample: a sampled time below [lastTime_] snaps each
    view that has a mesh that can be animated, once, stops the playback and
    dispatches [stop]; any other sampled time is stored in [lastTime_] and
    the model goes on playing. *)
Lemma update_once (deltaTime : float) (m m1 : Model3D) (lastTime : option float)
    (es : list Effect) :
  playing_ m = true -> js_true (looping_ m) = false ->
  advance_and_sample updateAnimation deltaTime m = (Ok lastTime, m1, es) ->
  (js_lt lastTime (lastTime_ m) = false ->
   update updateAnimation deltaTime m = (Ok tt, set_lastTime_ lastTime m1, es)
   ∧ playing_ (set_lastTime_ lastTime m1) = true)
  ∧ (js_lt lastTime (lastTime_ m) = true ->
     has_mesh (view m1) = true ->
     match stencilView m1 with Some sv => has_mesh sv = true | None => True end ->
     update updateAnimation deltaTime m =
       (Ok tt,
        set_playing_ false
          (set_stencilView (snapped updateAnimation <$> stencilView m1)
             (set_view (snapped updateAnimation (view m1)) m1)),
        es
          ++ (if has_morph_mesh (view m1) then [dirty Primary] else [])
          ++ match stencilView m1 with
             | Some sv => if has_morph_mesh sv then [dirty Stencil] else []
             | None => []
             end
          ++ [dispatch "stop"])).
Proof.
  intros Hp Hl Hadv.
  pose proof (advance_and_sample_fields deltaTime m) as (_ & Hp1 & _).
  rewrite Hadv in Hp1. unfold state in Hp1. cbn in Hp1. rewrite Hp in Hp1.
  split.
  - intros Hlt. rewrite (update_once_eq deltaTime m Hp Hl), Hadv, Hlt. done.
  - intros Hlt Hv Hs.
    rewrite (update_once_eq deltaTime m Hp Hl), Hadv, Hlt.
    rewrite (snap_and_stop_eq m1 Hv Hs), Hp1. reflexivity.
Qed.

(** The same tick when the stencil view has no mesh at the time of the
    sample: it throws after the primary view is snapped, and the model is
    left playing. *)
Lemma update_once_throws (deltaTime : float) (m m1 : Model3D) (lastTime : option float)
    (es : list Effect) (sv : View) :
  playing_ m = true -> js_true (looping_ m) = false ->
  advance_and_sample updateAnimation deltaTime m = (Ok lastTime, m1, es) ->
  js_lt lastTime (lastTime_ m) = true ->
  has_mesh (view m1) = true -> stencilView m1 = Some sv -> has_mesh sv = false ->
  result (update updateAnimation deltaTime m)
    = Throw (TypeError "this.modelMesh_ is null or undefined")
  ∧ playing_ (state (update updateAnimation deltaTime m)) = true
  ∧ view (state (update updateAnimation deltaTime m))
    = snapped updateAnimation (view m1).
Proof.
  intros Hp Hl Hadv Hlt Hv Hsv Hs.
  pose proof (advance_and_sample_fields deltaTime m) as (_ & Hp1 & _).
  rewrite Hadv in Hp1. unfold state in Hp1. cbn in Hp1. rewrite Hp in Hp1.
  rewrite (update_once_eq deltaTime m Hp Hl), Hadv, Hlt.
  rewrite (snap_and_stop_throws m1 sv Hv Hsv Hs).
  unfold result, state. cbn. done.
Qed.

End Ticks.

(** ** When play fails *)

Lemma playAnimation__takes (animation : Value) (v : View) :
  takes_clips v = true -> result (playAnimation_ animation v) = Ok tt.
Proof.
  destruct v as [[|] p [[[|] t d f r]|] mat], animation as [[s e d' l [|]]|];
    intros H; try discriminate; reflexivity.
Qed.

Lemma playAnimation__refuses (animation : Value) (v : View) :
  takes_clips v = false ->
  ∃ message, result (playAnimation_ animation v) = Throw (TypeError message).
Proof.
  destruct v as [[|] p [[[|] t d f r]|] mat], animation as [[s e d' l [|]]|];
    intros H; try discriminate; by eexists.
Qed.

(** The three failures of the specification, as the code has them: [play]
    throws them, with the model left as it was. The tests are [in] tests:
    they fail for a name that [animations_] neither stores nor inherits. *)
Lemma play_fails_as_specified (m : Model3D) :
  (has_animation (animation_ m) m = false ->
   ∃ e, play None m = (Throw e, m, []) ∧ condition e = Some InvalidState)
  ∧ (∃ e, play (Some "") m = (Throw e, m, []) ∧ condition e = Some InvalidArgument)
  ∧ (∀ name, name ≠ "" -> has_animation name m = false ->
     ∃ e, play (Some name) m = (Throw e, m, []) ∧ condition e = Some NotFound).
Proof.
  split; [|split].
  - intros H. rewrite play_resume_eq, H. by eexists.
  - rewrite play_empty_eq. by eexists.
  - intros name Hn Hl. unfold has_animation in Hl.
    destruct (lookup_animation name m) eqn:Hlookup; [done|].
    rewrite (play_missing_eq m name Hn Hlookup). by eexists.
Qed.

(** Every failure of [play] is one of these three, or the [TypeError] of a
    view that is marked loaded and holds no mesh that can be animated, when
    a name other than the selected one is played. *)
Lemma play_failures (m : Model3D) (opt_name : option string) (e : Error) :
  result (play opt_name m) = Throw e ->
  (opt_name = None ∧ has_animation (animation_ m) m = false
   ∧ condition e = Some InvalidState)
  ∨ (opt_name = Some "" ∧ condition e = Some InvalidArgument)
  ∨ (∃ name, opt_name = Some name ∧ name ≠ "" ∧ has_animation name m = false
             ∧ condition e = Some NotFound)
  ∨ (∃ name message,
       opt_name = Some name ∧ name ≠ "" ∧ has_animation name m = true
       ∧ name ≠ animation_ m ∧ e = TypeError message
       ∧ (takes_clips (view m) = false
          ∨ ∃ sv, stencilView m = Some sv ∧ takes_clips sv = false)).
Proof.
  play_cases m opt_name; unfold result; cbn.
  - intros [= <-]. right; left. done.
  - discriminate.
  - intros H. do 3 right.
    assert (has_animation name m = true) as Hin
      by (unfold has_animation; by rewrite Hlookup).
    destruct (takes_clips (view m)) eqn:Hv.
    + pose proof (playAnimation__takes animation (view m) Hv) as Hr.
      destruct (playAnimation_ animation (view m)) as [[[[]|e'] v] ev];
        unfold result in Hr; cbn in Hr; [|discriminate].
      destruct (stencilView m) as [sv|] eqn:Hsv; [|discriminate].
      destruct (takes_clips sv) eqn:Hs.
      * pose proof (playAnimation__takes animation sv Hs) as Hr'.
        destruct (playAnimation_ animation sv) as [[[[]|e'] sv'] es];
          unfold result in Hr'; cbn in Hr'; discriminate.
      * pose proof (playAnimation__throws animation sv) as Ht.
        destruct (playAnimation_ animation sv) as [[[[]|e'] sv'] es];
          unfold result in Ht; cbn in Ht; [discriminate|].
        cbn in H. injection H as ->. destruct (Ht e eq_refl) as [msg ->].
        exists name, msg. repeat split; eauto.
    + pose proof (playAnimation__throws animation (view m)) as Ht.
      pose proof (playAnimation__refuses animation (view m) Hv) as [msg' Hr].
      destruct (playAnimation_ animation (view m)) as [[[[]|e'] v] ev];
        unfold result in Ht, Hr; cbn in Ht, Hr; [discriminate|].
      cbn in H. injection H as ->. destruct (Ht e eq_refl) as [msg ->].
      exists name, msg. repeat split; eauto.
  - intros [= <-]. right; right; left. exists name.
    unfold has_animation. by rewrite Hlookup.
  - destruct (has_animation (animation_ m) m) eqn:Hh; cbn; [discriminate|].
    intros [= <-]. left. done.
Qed.

(** When each view can take a clip, [play] returns [this] for every input
    outside the three failures. *)
Lemma play_returns (m : Model3D) (opt_name : option string) :
  takes_clips (view m) = true ->
  match stencilView m with Some sv => takes_clips sv = true | None => True end ->
  match opt_name with
  | None => has_animation (animation_ m) m = true
  | Some name => name ≠ "" ∧ has_animation name m = true
  end ->
  result (play opt_name m) = Ok this.
Proof.
  intros Hv Hs Hin.
  destruct (result (play opt_name m)) as [[]|e] eqn:Hr; [done|].
  apply play_failures in Hr
    as [(-> & Hl & _) | [(-> & _) | [(name & -> & _ & Hl & _)
       | (name & msg & -> & _ & _ & _ & _ & [Hv' | (sv & Hsv & Hs')])]]].
  - congruence.
  - by destruct Hin.
  - destruct Hin as [_ Hin]. congruence.
  - congruence.
  - rewrite Hsv in Hs. congruence.
Qed.

(** ** The pending clip *)

(** While the view is not loaded, the clip asked for last is the one kept. *)
Lemma pending_keeps_last_clip (first second : Value) (v : View) :
  loaded v = false ->
  playAnimation_ first v = (Ok tt, set_pendingAnimation_ (Some first) v, [])
  ∧ playAnimation_ second (state (playAnimation_ first v))
    = (Ok tt, set_pendingAnimation_ (Some second) v, []).
Proof.
  intros H. rewrite (playAnimation__pending first v H). split; [done|].
  unfold state. cbn. by rewrite playAnimation__pending.
Qed.

(** The first advance of a loaded view that holds a mesh that can be
    animated applies the pending clip, empties the slot and advances the
    clock. *)
Lemma pending_applied_on_first_advance (updateAnimation : Mesh -> float -> Mesh)
    (id : ViewId) (deltaTimeMs : float) (v : View) (clip : Value) (mesh : Mesh) :
  loaded v = true -> pendingAnimation_ v = Some clip ->
  modelMesh_ v = Some mesh -> morph mesh = true ->
  updateAnimation_ updateAnimation id deltaTimeMs v =
    (Ok tt,
     {| loaded := true; pendingAnimation_ := None;
        modelMesh_ :=
          Some (updateAnimation
                  {| morph := true; time := Some 0%float;
                     mduration := duration_of clip;
                     directionForward := js_true (forward_of clip);
                     frameRange := Some (start_of clip, end_of clip) |}
                  deltaTimeMs);
        material_ := material_ v |},
     [dirty id]).
Proof.
  intros Hl Hp Hm Hmorph.
  destruct v as [l p mm mat], mesh as [mo t d f r], clip as [[s e d' lp [|]]|];
    cbn in *; simplify_eq; reflexivity.
Qed.

(** The first advance of a loaded view that holds a plain mesh throws on
    the pending clip and keeps it in the slot. *)
Lemma pending_stuck_on_plain_mesh (updateAnimation : Mesh -> float -> Mesh)
    (id : ViewId) (deltaTimeMs : float) (v : View) (clip : Value) (mesh : Mesh) :
  loaded v = true -> pendingAnimation_ v = Some clip ->
  modelMesh_ v = Some mesh -> morph mesh = false ->
  ∃ message,
    result (updateAnimation_ updateAnimation id deltaTimeMs v) = Throw (TypeError message)
    ∧ pendingAnimation_ (state (updateAnimation_ updateAnimation id deltaTimeMs v))
      = Some clip.
Proof.
  intros Hl Hp Hm Hmorph.
  destruct v as [l p mm mat], mesh as [mo t d f r], clip as [[s e d' lp [|]]|];
    cbn in *; simplify_eq; by eexists.
Qed.

(** ** The model on sample runs *)

Lemma create_default (stencils : bool) :
  create default_options stencils = Ok (fresh stencils None).
Proof. by destruct stencils. Qed.

Lemma create_plain (stencils : bool) :
  create plain_options stencils = Ok (fresh stencils (Some false)).
Proof. by destruct stencils. Qed.

Lemma reachable_fresh_run (updateAnimation : Mesh -> float -> Mesh)
    (stencils : bool) (cs : list Call) :
  reachable updateAnimation (run updateAnimation cs (fresh stencils None)).
Proof.
  apply reachable_run.
  apply (reachable_create updateAnimation default_options stencils).
  apply create_default.
Qed.

Lemma reachable_plain_run (updateAnimation : Mesh -> float -> Mesh)
    (stencils : bool) (cs : list Call) :
  reachable updateAnimation (run updateAnimation cs (fresh stencils (Some false))).
Proof.
  apply reachable_run.
  apply (reachable_create updateAnimation plain_options stencils).
  apply create_plain.
Qed.

(** C1, where the code departs from it. The primary view has loaded, the
    stencil view has not; a clip that plays once is played and a first tick
    of half a second stores the time 500. The next tick samples 100, below
    500: the primary view is snapped, then snapping the stencil view throws
    a [TypeError], [stop] is not reached and the model is still playing. *)
Theorem tick_throws_when_stencil_has_no_mesh :
  let m := run wrapping_clock
             [loader_answers Primary built_mesh [textured];
              call_setAnimation "once" 0 10 1 (Some false) None;
              call_play (Some "once");
              call_update 0.5]
             (fresh true None) in
  reachable wrapping_clock m
  ∧ playing_ m = true ∧ looping_ m = Some false ∧ lastTime_ m = Some 500%float
  ∧ result (advance_and_sample wrapping_clock 0.6 m) = Ok (Some 100%float)
  ∧ result (update wrapping_clock 0.6 m)
    = Throw (TypeError "this.modelMesh_ is null or undefined")
  ∧ playing_ (state (update wrapping_clock 0.6 m)) = true
  ∧ dispatched "stop" (effects (update wrapping_clock 0.6 m)) = 0
  ∧ time <$> modelMesh_ (view (state (update wrapping_clock 0.6 m)))
    = Some (Some 1%float).
Proof.
  split; [apply reachable_fresh_run|]. by vm_compute.
Qed.

(** C2, as stated, fails: [setAnimation] on the name that is playing
    replaces the clip and leaves [looping_] as it was. *)
Lemma looping_stale_after_redefinition :
  let m := run wrapping_clock
             [call_setAnimation "walk" 0 30 2 None None;
              call_play (Some "walk");
              call_setAnimation "walk" 0 30 2 (Some false) None]
             (fresh false None) in
  reachable wrapping_clock m ∧ ¬ looping_mirrors_clip m.
Proof.
  split; [apply reachable_fresh_run|].
  intros H. destruct (H eq_refl) as (a & Ha & Hl).
  vm_compute in Ha. injection Ha as <-. vm_compute in Hl. discriminate.
Qed.

(** C3, where the code departs from it. The model has loaded and has a
    clip "walk"; [setModelSrc] takes the mesh away and leaves the view
    marked loaded; until the loader answers, [play("walk")], a registered
    name, throws a [TypeError], which is none of the three conditions. *)
Theorem play_throws_while_reloading :
  let m := run wrapping_clock
             [loader_answers Primary built_mesh [textured];
              call_setAnimation "walk" 0 30 2 None None;
              call_setModelSrc "b.json"]
             (fresh false None) in
  reachable wrapping_clock m
  ∧ is_Some (animations_ m !! "walk")
  ∧ loaded (view m) = true ∧ modelMesh_ (view m) = None
  ∧ result (play (Some "walk") m)
    = Throw (TypeError "this.modelMesh_ is null or undefined")
  ∧ condition (TypeError "this.modelMesh_ is null or undefined") = None.
Proof.
  split; [apply reachable_fresh_run|].
  split; [by eexists|]. by vm_compute.
Qed.

(** C10, where the code departs from it. On a model that is not animated
    two clips are played before the loader answers; the second is the one
    pending. The loader answers with a plain mesh; the first advance of the
    view throws a [TypeError] on [setDirectionForward] and the clip stays
    pending. *)
Theorem pending_clip_stuck_when_not_animated :
  let m := run wrapping_clock
             [call_setAnimation "walk" 0 30 2 None None;
              call_setAnimation "run" 31 50 1 None None;
              call_play (Some "walk");
              call_play (Some "run");
              loader_answers Primary built_mesh [textured]]
             (fresh false (Some false)) in
  let run_clip := {| start := 31; end_ := 50; duration := 1000;
                     loop := true; forward := true |} in
  reachable wrapping_clock m
  ∧ loaded (view m) = true
  ∧ pendingAnimation_ (view m) = Some (Clip run_clip)
  ∧ result (updateAnimation_ wrapping_clock Primary 16 (view m))
    = Throw (TypeError "setDirectionForward is not a function")
  ∧ pendingAnimation_ (state (updateAnimation_ wrapping_clock Primary 16 (view m)))
    = Some (Clip run_clip)
  ∧ result (update wrapping_clock 0.016 m)
    = Throw (TypeError "setDirectionForward is not a function").
Proof.
  split; [apply reachable_plain_run|]. by vm_compute.
Qed.

(** C8, where the code departs from it. [play("toString")] on a model fresh
    from the constructor: [in] finds the name in [animations_], which
    inherits it from [Object.prototype], so [play] returns [this], selects
    the name, hands the inherited value to the view and dispatches [play].
    No clip is stored under the selected name, and [looping_], read from
    the [loop] property of the value, is [undefined]. *)
Theorem play_selects_an_inherited_name :
  let r := play (Some "toString") (fresh false None) in
  let m := run wrapping_clock [call_play (Some "toString")] (fresh false None) in
  reachable wrapping_clock m
  ∧ state r = m
  ∧ result r = Ok this
  ∧ effects r = [dispatch "play"]
  ∧ animation_ m = "toString"
  ∧ animations_ m = ∅
  ∧ playing_ m = true
  ∧ looping_ m = None
  ∧ pendingAnimation_ (view m) = Some Other
  ∧ ¬ animation_registered m.
Proof.
  split; [apply reachable_fresh_run|].
  do 8 (split; [reflexivity|]).
  intros [H | [a H]]; by vm_compute in H.
Qed.

(** ** The theorems on sample inputs *)


Lemma setModelSrc_sample :
  setModelSrc "a.json" (fresh true None) = (Ok this, fresh true None, [])
  ∧ effects (setModelSrc "b.json" (fresh true None))
    = [dispatch "changeModelSrc"; loader_load Primary "b.json";
       loader_load Stencil "b.json"].
Proof.
  destruct (setModelSrc_reloads_on_change (fresh true None) "a.json")
    as [Hsame _]; [done|].
  destruct (setModelSrc_reloads_on_change (fresh true None) "b.json")
    as [_ Hnew]; [done|].
  split; [by apply Hsame | by rewrite Hnew].
Defined.

Lemma play_again_sample :
  let m := state (setAnimation "walk" 0 30 2 None None (fresh true None)) in
  let m1 := state (play (Some "walk") m) in
  play (Some "walk") m1 = (Ok this, set_playing_ true m1, []).
Proof.
  intros m m1.
  apply (play_again_only_resumes m "walk"); [done | by eexists].
Defined.

Lemma reachable_keeping_sample :
  reachable_keeping_selection wrapping_clock
    (run wrapping_clock
       [call_setAnimation "walk" 0 30 2 (Some false) None; call_play (Some "walk")]
       (fresh false None)).
Proof.
  cbn [run].
  apply keeping_exec; [apply keeping_exec|].
  - apply (keeping_create wrapping_clock default_options false), create_default.
  - intros _. by vm_compute.
  - split; [intros message; by vm_compute | reflexivity].
Qed.

Lemma looping_mirrors_clip_sample :
  let m := run wrapping_clock
             [call_setAnimation "walk" 0 30 2 (Some false) None;
              call_play (Some "walk")]
             (fresh false None) in
  ∃ animation, animations_ m !! animation_ m = Some animation
               ∧ looping_ m = Some (loop animation).
Proof.
  intros m.
  apply (looping_mirrors_clip_kept wrapping_clock m reachable_keeping_sample).
  reflexivity.
Defined.

(** * Further properties *)

(** ** The constructor *)

(** X1. [initialize] throws exactly when [modelSrc] is empty or a format
    other than "json" is given, each time as an invalid argument; otherwise
    the model has the source given, [animated_] true unless the option says
    otherwise, no clip, no selected animation, and it neither plays nor
    loops; [lastTime_] is left undefined. *)
Theorem initialize_outcome (options : Options) (stencils : bool) :
  match initialize options stencils with
  | Ok m =>
      modelSrc options ≠ ""
      ∧ (format options = None ∨ format options = Some "json")
      ∧ modelSrc_ m = modelSrc options
      ∧ animated_ m = default true (animated options)
      ∧ animations_ m = ∅ ∧ animations_proto_ m = None ∧ animation_ m = ""
      ∧ playing_ m = false ∧ looping_ m = Some false ∧ lastTime_ m = None
      ∧ view m = new_view
      ∧ stencilView m = (if stencils then Some new_view else None)
  | Throw e =>
      condition e = Some InvalidArgument
      ∧ (modelSrc options = ""
         ∨ ∃ f, format options = Some f ∧ f ≠ "json")
  end.
Proof.
  unfold initialize. destruct (truthy (modelSrc options)) eqn:Hs; cbn.
  - apply truthy_spec in Hs. destruct (format options) as [f|]; cbn.
    + destruct (String.eqb f "json") eqn:Hf.
      * apply String.eqb_eq in Hf as ->. repeat split; auto.
      * apply String.eqb_neq in Hf. split; [done|]. right. by exists f.
    + repeat split; auto.
  - split; [done|]. left. unfold truthy in Hs.
    apply negb_false_iff, String.eqb_eq in Hs. done.
Qed.

(** What the framework's [load] of the views does to a model fresh from
    [initialize]: nothing to its fields, and one request to the loader for
    each view. *)
Lemma load_views_eq (m : Model3D) :
  view m = new_view ->
  stencilView m = None ∨ stencilView m = Some new_view ->
  load_views m =
    (Ok tt, m,
     loader_load Primary (modelSrc_ m)
       :: match stencilView m with
          | Some _ => [loader_load Stencil (modelSrc_ m)]
          | None => []
          end).
Proof.
  destruct m as [src [] an ans pr cur pl lo lt v0 sv0]; cbn.
  intros -> [-> | ->]; reflexivity.
Qed.

(** X3. Building a model asks the loader for the model file once for the
    primary view and once more for the stencil view when there is one, and
    for nothing else; the views start unloaded, with no pending clip, mesh
    or material. *)
Theorem create_requests_the_model (options : Options) (stencils : bool)
    (m0 : Model3D) :
  initialize options stencils = Ok m0 ->
  create options stencils = Ok m0
  ∧ load_views m0 =
      (Ok tt, m0,
       loader_load Primary (modelSrc options)
         :: (if stencils then [loader_load Stencil (modelSrc options)] else []))
  ∧ view m0 = new_view
  ∧ stencilView m0 = (if stencils then Some new_view else None).
Proof.
  intros Hi. pose proof (initialize_fields options stencils m0 Hi) as _.
  assert (view m0 = new_view
          ∧ stencilView m0 = (if stencils then Some new_view else None)
          ∧ modelSrc_ m0 = modelSrc options) as (Hv & Hs & Hsrc).
  { unfold initialize in Hi.
    destruct (negb (truthy (modelSrc options))); [done|].
    destruct (format options) as [f|]; [destruct (String.eqb f "json")|];
      by simplify_eq. }
  assert (load_views m0 =
            (Ok tt, m0,
             loader_load Primary (modelSrc options)
               :: (if stencils then [loader_load Stencil (modelSrc options)]
                   else []))) as Hl.
  { rewrite load_views_eq; [| done | rewrite Hs; destruct stencils; auto].
    rewrite Hs, Hsrc. by destruct stencils. }
  split; [|done]. unfold create. rewrite Hi, Hl. done.
Qed.

Lemma create_requests_sample :
  create default_options true = Ok (fresh true None)
  ∧ requests (effects (load_views (fresh true None)))
    = [(Primary, "a.json"); (Stencil, "a.json")].
Proof.
  destruct (create_requests_the_model default_options true (fresh true None))
    as (Hc & Hl & _); [reflexivity|].
  split; [exact Hc | by rewrite Hl].
Defined.

(** ** Arguments that are refused *)

(** X2. [setAnimation] returns exactly when the name is not empty and
    [start], [end] and [seconds] are [>= 0], the comparison being the one of
    the doubles. When it throws, the failure is an invalid argument, nothing
    is stored and the model is as it was. *)
Theorem setAnimation_refuses_bad_arguments (m : Model3D) (name : string)
    (start end_ seconds : float) (opt_loop opt_forward : option bool) :
  let r := setAnimation name start end_ seconds opt_loop opt_forward m in
  (result r = Ok this
   <-> name ≠ "" ∧ (0 <=? start)%float = true ∧ (0 <=? end_)%float = true
       ∧ (0 <=? seconds)%float = true)
  ∧ (∀ e, result r = Throw e ->
       condition e = Some InvalidArgument ∧ state r = m ∧ effects r = []).
Proof.
  cbn zeta. rewrite setAnimation_run. unfold result, state, effects.
  rewrite <- truthy_spec. fold (js_ge0 start) (js_ge0 end_) (js_ge0 seconds).
  destruct (truthy name), (js_ge0 start), (js_ge0 end_), (js_ge0 seconds); cbn;
    (split; [split; [try discriminate; done | by intros (? & ? & ? & ?)]
            | intros e H; by simplify_eq]).
Qed.

(** ** Changing the source *)

(** X4. [setModelSrc] twice with the same path: the second call changes
    nothing and calls nothing; the model is reloaded once. *)
Theorem setModelSrc_again_is_idle (m : Model3D) (path : string) :
  path ≠ "" ->
  let m1 := state (setModelSrc path m) in
  setModelSrc path m1 = (Ok this, m1, [])
  ∧ modelSrc_ m1 = path.
Proof.
  intros Hp m1.
  assert (modelSrc_ m1 = path) as Hsrc.
  { subst m1. destruct (setModelSrc_eq m path Hp) as [Hsame Hnew].
    destruct (decide (path = modelSrc_ m)) as [He|He].
    - by rewrite Hsame.
    - by rewrite Hnew. }
  split; [|done]. by apply (setModelSrc_eq m1 path Hp).
Qed.

Lemma setModelSrc_again_sample :
  setModelSrc "b.json" (state (setModelSrc "b.json" playing_once))
  = (Ok this, state (setModelSrc "b.json" playing_once), []).
Proof.
  by apply (setModelSrc_again_is_idle playing_once "b.json").
Defined.

Lemma setModelSrc_cases (m : Model3D) (path : string) :
  ((path = "" ∨ path = modelSrc_ m) ∧ state (setModelSrc path m) = m)
  ∨ (path ≠ "" ∧ path ≠ modelSrc_ m
     ∧ state (setModelSrc path m) = reloading path m).
Proof.
  destruct (decide (path = "")) as [->|Hp]; [left; by split; [left|]|].
  destruct (setModelSrc_eq m path Hp) as [Hsame Hnew].
  destruct (decide (path = modelSrc_ m)) as [He|He].
  - left. split; [by right|]. by rewrite Hsame.
  - right. do 2 (split; [done|]). by rewrite Hnew.
Qed.

(** X5. Whatever the path, [setModelSrc] keeps the clips, the selected
    animation, [looping_], [lastTime_] and [animated_]; it never starts the
    playback; and it leaves each view marked loaded or not as it was, with
    the pending clip it had. After a change of path no view holds a mesh or
    a material, and the model does not play. *)
Theorem setModelSrc_keeps_animations (m : Model3D) (path : string) :
  let m1 := state (setModelSrc path m) in
  animations_ m1 = animations_ m
  ∧ animations_proto_ m1 = animations_proto_ m
  ∧ animation_ m1 = animation_ m
  ∧ looping_ m1 = looping_ m
  ∧ lastTime_ m1 = lastTime_ m
  ∧ animated_ m1 = animated_ m
  ∧ (playing_ m1 = true -> playing_ m = true)
  ∧ loaded (view m1) = loaded (view m)
  ∧ pendingAnimation_ (view m1) = pendingAnimation_ (view m)
  ∧ (loaded <$> stencilView m1) = (loaded <$> stencilView m)
  ∧ (pendingAnimation_ <$> stencilView m1) = (pendingAnimation_ <$> stencilView m)
  ∧ (path ≠ "" -> path ≠ modelSrc_ m ->
     playing_ m1 = false
     ∧ has_mesh (view m1) = false ∧ has_material (view m1) = false
     ∧ (has_mesh <$> stencilView m1) = ((λ _, false) <$> stencilView m)
     ∧ (has_material <$> stencilView m1) = ((λ _, false) <$> stencilView m)).
Proof.
  intros m1. subst m1.
  destruct (setModelSrc_cases m path) as [[Hc ->] | (Hp & He & ->)].
  - repeat split; try done; by destruct Hc.
  - destruct (stencilView m) as [sv|] eqn:Hsv; cbn; rewrite ?Hsv; cbn;
      repeat split; done.
Qed.

(** ** Loading and unloading a view *)

(** X6. [unload] never throws, whatever the view holds. It leaves the view
    without mesh and material, and [loaded] and the pending clip as they
    were; it takes the mesh out of the scene and out of the triggers
    exactly when there was one, and disposes of the material exactly when
    there was one. A second [unload] does nothing. *)
Theorem unload_releases_once (id : ViewId) (v : View) :
  let v1 := state (unload id v) in
  result (unload id v) = Ok tt
  ∧ modelMesh_ v1 = None ∧ material_ v1 = None
  ∧ loaded v1 = loaded v ∧ pendingAnimation_ v1 = pendingAnimation_ v
  ∧ effects (unload id v)
    = (if has_mesh v then [scene_remove id; triggers_remove id] else [])
        ++ (if has_material v then [material_dispose id] else [])
  ∧ unload id v1 = (Ok tt, v1, []).
Proof.
  destruct v as [l p [mesh|] [mat|]]; cbn; repeat split; done.
Qed.

(** X7. [load] puts a view back to its blank state, whatever it held, and
    [loadModel_] keeps [loaded] and the pending clip; neither throws, and
    each asks the loader for the file exactly once, after the mesh and the
    material are released. *)
Theorem load_asks_the_loader_once (id : ViewId) (src : string) (v : View) :
  load id JSON src v
  = (Ok tt, new_view,
     (if has_mesh v then [scene_remove id; triggers_remove id] else [])
       ++ (if has_material v then [material_dispose id] else [])
       ++ [loader_load id src])
  ∧ requests (effects (load id JSON src v)) = [(id, src)]
  ∧ result (loadModel_ id JSON src v) = Ok tt
  ∧ requests (effects (loadModel_ id JSON src v)) = [(id, src)]
  ∧ loaded (state (loadModel_ id JSON src v)) = loaded v
  ∧ pendingAnimation_ (state (loadModel_ id JSON src v)) = pendingAnimation_ v
  ∧ has_mesh (state (loadModel_ id JSON src v)) = false.
Proof.
  destruct v as [l p [mesh|] [mat|]]; repeat split; reflexivity.
Qed.

(** X8. The answer of the loader. For a model that is animated the
    callback throws a [TypeError], and leaves the view as it was and adds
    nothing to the scene, when the file has no material or its first
    material has no texture; otherwise, and always for a model that is not
    animated, it stores the new mesh, of the class the model asks for,
    adds it to the scene and to the triggers once, and marks the view
    loaded. The pending clip is kept. *)
Theorem loader_answer_outcome (id : ViewId) (animated : bool) (built : Mesh)
    (materials : list Material) (v : View) :
  let r := loadJson_callback id animated built materials v in
  let textured_first :=
    match head materials with
    | Some material => match map material with Some _ => true | None => false end
    | None => false
    end in
  if animated && negb textured_first
  then (∃ message, result r = Throw (TypeError message))
       ∧ state r = v ∧ effects r = []
  else result r = Ok tt
       ∧ loaded (state r) = true
       ∧ modelMesh_ (state r) = Some (new_mesh animated built)
       ∧ has_morph_mesh (state r) = animated
       ∧ pendingAnimation_ (state r) = pendingAnimation_ v
       ∧ material_ (state r)
         = (if animated then Some {| map := Some false; morphTargets := true |}
            else head materials)
       ∧ effects r = [scene_add id; triggers_add id].
Proof.
  destruct animated, materials as [|[[t|] mt] ms], v as [l p mm mat]; cbn;
    repeat split; try done; by eexists.
Qed.

(** A view the loader has answered with a mesh that can be animated takes
    any clip. *)
Lemma loaded_animated_view_takes_clips (id : ViewId) (built : Mesh)
    (materials : list Material) (v : View) :
  result (loadJson_callback id true built materials v) = Ok tt ->
  takes_clips (state (loadJson_callback id true built materials v)) = true.
Proof.
  destruct materials as [|[[t|] mt] ms], v as [[|] p mm mat]; cbn; done.
Qed.

(** ** Registering clips *)

(** X9. Clips under different names are registered independently: two
    [setAnimation] calls with different names leave the same model in
    either order, whether or not each is accepted. Under one name the last
    accepted call wins, and repeating a call changes nothing more. *)
Theorem setAnimation_calls_compose (m : Model3D) (name1 name2 : string)
    (s1 e1 d1 s2 e2 d2 : float) (l1 f1 l2 f2 : option bool) :
  (name1 ≠ name2 ->
   state (setAnimation name2 s2 e2 d2 l2 f2 (state (setAnimation name1 s1 e1 d1 l1 f1 m)))
   = state (setAnimation name1 s1 e1 d1 l1 f1 (state (setAnimation name2 s2 e2 d2 l2 f2 m))))
  ∧ (result (setAnimation name1 s2 e2 d2 l2 f2 m) = Ok this ->
     state (setAnimation name1 s2 e2 d2 l2 f2 (state (setAnimation name1 s1 e1 d1 l1 f1 m)))
     = state (setAnimation name1 s2 e2 d2 l2 f2 m))
  ∧ state (setAnimation name1 s1 e1 d1 l1 f1 (state (setAnimation name1 s1 e1 d1 l1 f1 m)))
    = state (setAnimation name1 s1 e1 d1 l1 f1 m).
Proof.
  split; [|split].
  - intros Hne. rewrite !setAnimation_run. unfold state.
    destruct (truthy name1 && js_ge0 s1 && js_ge0 e1 && js_ge0 d1);
      destruct (truthy name2 && js_ge0 s2 && js_ge0 e2 && js_ge0 d2);
      cbn [fst snd]; try done.
    by apply assign_animation_comm.
  - rewrite !setAnimation_run. unfold state, result.
    destruct (truthy name1 && js_ge0 s2 && js_ge0 e2 && js_ge0 d2);
      [|discriminate].
    intros _.
    destruct (truthy name1 && js_ge0 s1 && js_ge0 e1 && js_ge0 d1);
      cbn [fst snd]; [|done].
    apply assign_animation_again.
  - rewrite !setAnimation_run. unfold state.
    destruct (truthy name1 && js_ge0 s1 && js_ge0 e1 && js_ge0 d1);
      cbn [fst snd]; [|done].
    apply assign_animation_again.
Qed.

Lemma setAnimation_calls_compose_sample :
  state (setAnimation "run" 31 50 1 None None
           (state (setAnimation "walk" 0 30 2 None None (fresh false None))))
  = state (setAnimation "walk" 0 30 2 None None
             (state (setAnimation "run" 31 50 1 None None (fresh false None)))).
Proof.
  by apply (setAnimation_calls_compose (fresh false None) "walk" "run"
              0 30 2 31 50 1 None None None None).
Defined.

(** ** Playing *)

(** X10. The failures of [play], as the code has them. A call without
    name when [in] does not find the selected name in [animations_], a call
    with the empty name, and a call with a name that [in] does not find
    throw, as an invalid state, an invalid argument and a name not found;
    they leave the model as it was and dispatch nothing. [in] finds no name
    that is neither stored nor among those an object inherits; it always
    finds [__proto__] and the methods of [Object.prototype], so [play] of
    such a name never fails as not found. Any other failure is the
    [TypeError] of a view that is marked loaded and holds no mesh that can
    be animated, on a name that [in] finds and that is not the selected
    one. *)
Theorem play_failure_modes (m : Model3D) :
  (has_animation (animation_ m) m = false ->
   ∃ e, play None m = (Throw e, m, []) ∧ condition e = Some InvalidState)
  ∧ (∃ e, play (Some "") m = (Throw e, m, []) ∧ condition e = Some InvalidArgument)
  ∧ (∀ name, name ≠ "" -> has_animation name m = false ->
     ∃ e, play (Some name) m = (Throw e, m, []) ∧ condition e = Some NotFound)
  ∧ (∀ name, animations_ m !! name = None ->
     name ∉ "__proto__" :: Object_prototype_methods ++ clip_properties ->
     has_animation name m = false)
  ∧ (∀ name, name ∈ "__proto__" :: Object_prototype_methods ->
     has_animation name m = true
     ∧ ∀ e, result (play (Some name) m) = Throw e -> condition e ≠ Some NotFound)
  ∧ (∀ opt_name e, result (play opt_name m) = Throw e ->
     (opt_name = None ∧ has_animation (animation_ m) m = false
      ∧ condition e = Some InvalidState)
     ∨ (opt_name = Some "" ∧ condition e = Some InvalidArgument)
     ∨ (∃ name, opt_name = Some name ∧ name ≠ "" ∧ has_animation name m = false
                ∧ condition e = Some NotFound)
     ∨ (∃ name message,
          opt_name = Some name ∧ name ≠ "" ∧ has_animation name m = true
          ∧ name ≠ animation_ m ∧ e = TypeError message
          ∧ (takes_clips (view m) = false
             ∨ ∃ sv, stencilView m = Some sv ∧ takes_clips sv = false))).
Proof.
  destruct (play_fails_as_specified m) as (H1 & H2 & H3).
  do 3 (split; [done|]). split; [|split].
  - intros name Hown Hnot.
    destruct (has_animation name m) eqn:Hin; [|done].
    destruct Hnot. apply (only_inherited_names name m).
    unfold only_inherited. rewrite Hin. cbn. by apply bool_decide_eq_true.
  - intros name Hin.
    pose proof (has_animation_Object_prototype name m Hin) as Hfound.
    split; [done|]. intros e He.
    apply play_failures in He
      as [(? & _) | [([= ->] & ->) | [(name' & [= <-] & _ & Hno & _)
         | (name' & msg & _ & _ & _ & _ & -> & _)]]]; try done.
    congruence.
  - intros opt_name e. apply play_failures.
Qed.

(** X11. When each view is either not loaded yet or holds a mesh that can
    be animated, [play] returns [this] for every registered name that is
    not empty, and for the call without name when the selected animation is
    registered. *)
Theorem play_returns_when_views_take_clips (m : Model3D) (opt_name : option string) :
  takes_clips (view m) = true ->
  match stencilView m with Some sv => takes_clips sv = true | None => True end ->
  match opt_name with
  | None => is_Some (animations_ m !! animation_ m)
  | Some name => name ≠ "" ∧ is_Some (animations_ m !! name)
  end ->
  result (play opt_name m) = Ok this.
Proof.
  intros Hv Hs Hin. apply play_returns; [done | done |].
  destruct opt_name as [name|].
  - destruct Hin as [Hn Hin]. split; [done | by apply has_animation_own].
  - by apply has_animation_own.
Qed.

Lemma play_returns_sample :
  result (play (Some "once") (state (stop playing_once))) = Ok this.
Proof.
  apply (play_returns_when_views_take_clips (state (stop playing_once))
           (Some "once")); [reflexivity | exact I | split; [done | by eexists]].
Defined.

(** X12. A view handed a clip, or any other value that [play] can hand it.
    Not loaded, it keeps the value as pending and touches nothing else.
    Loaded with a mesh that can be animated, it sets the time of the mesh to
    0, its duration, direction and frame range to those of the clip, and
    leaves the pending slot alone; a property that the value does not have
    is written as [undefined], and the direction is then backward. Loaded
    with no mesh, or with a plain mesh, it throws a [TypeError]; the plain
    mesh has by then its time and duration written. It never calls into the
    scene, the triggers or the loader. *)
Theorem playAnimation_outcome (animation : Value) (v : View) :
  let r := playAnimation_ animation v in
  effects r = []
  ∧ (loaded v = false ->
     r = (Ok tt, set_pendingAnimation_ (Some animation) v, []))
  ∧ (loaded v = true -> modelMesh_ v = None ->
     ∃ message, r = (Throw (TypeError message), v, []))
  ∧ (∀ mesh, loaded v = true -> modelMesh_ v = Some mesh -> morph mesh = true ->
     r = (Ok tt,
          set_modelMesh_
            (Some {| morph := true; time := Some 0%float;
                     mduration := duration_of animation;
                     directionForward := js_true (forward_of animation);
                     frameRange := Some (start_of animation, end_of animation) |}) v,
          []))
  ∧ (∀ mesh, loaded v = true -> modelMesh_ v = Some mesh -> morph mesh = false ->
     ∃ message,
       r = (Throw (TypeError message),
            set_modelMesh_
              (Some (set_mduration (duration_of animation)
                       (set_time (Some 0%float) mesh))) v,
            [])).
Proof.
  cbn zeta. split; [apply playAnimation__silent|].
  split; [apply playAnimation__pending|].
  split; [|split].
  - intros Hl Hm. destruct v as [l p mm mat]; cbn in *; subst. by eexists.
  - intros mesh. apply playAnimation__applies.
  - intros mesh Hl Hm Hmorph.
    destruct v as [l p mm mat], mesh as [mo t d f r],
      animation as [[s e d' lp [|]]|]; cbn in *; simplify_eq; by eexists.
Qed.

(** X13. [setAnimation] and then [play] of that name, on a model that had
    another animation selected, or none, and whose views can take a clip:
    [play] returns [this]; the name is selected, the model plays, it loops
    as the clip says, [lastTime_] is 0, each view has been handed the clip,
    whose duration is the product [seconds * 1000] of the doubles, and a
    [play] event is dispatched exactly when the model was not playing. *)
Theorem play_after_setAnimation (m : Model3D) (name : string)
    (start end_ seconds : float) (opt_loop opt_forward : option bool) :
  name ≠ "" ->
  (0 <=? start)%float = true -> (0 <=? end_)%float = true ->
  (0 <=? seconds)%float = true ->
  name ≠ animation_ m ->
  takes_clips (view m) = true ->
  match stencilView m with Some sv => takes_clips sv = true | None => True end ->
  let clip := {| start := start; end_ := end_; duration := (seconds * 1000)%float;
                 loop := default true opt_loop;
                 forward := default true opt_forward |} in
  let m1 := state (setAnimation name start end_ seconds opt_loop opt_forward m) in
  let r := play (Some name) m1 in
  result r = Ok this
  ∧ animation_ (state r) = name
  ∧ playing_ (state r) = true
  ∧ looping_ (state r) = Some (default true opt_loop)
  ∧ lastTime_ (state r) = Some 0%float
  ∧ lookup_animation name (state r) = Some (Clip clip)
  ∧ view (state r) = state (playAnimation_ (Clip clip) (view m))
  ∧ stencilView (state r)
    = (λ sv, state (playAnimation_ (Clip clip) sv)) <$> stencilView m
  ∧ effects r = (if playing_ m then [] else [dispatch "play"]).
Proof.
  intros Hn Hs He Hd Hcur Hv Hsv clip m1 r.
  assert (m1 = assign_animation name clip m) as Hm1.
  { subst m1. by rewrite (setAnimation_accepts m name _ _ _ _ _ Hn Hs He Hd). }
  assert (lookup_animation name m1 = Some (Clip clip)) as Hl.
  { rewrite Hm1. apply assign_animation_lookup. }
  destruct (assign_animation_fields name clip m)
    as (_ & _ & _ & Hc1 & Hp1 & _ & _ & Hv1 & Hs1).
  rewrite <- Hm1 in Hc1, Hp1, Hv1, Hs1.
  assert (animation_ m1 ≠ name) as Hcur1 by congruence.
  subst r. rewrite (play_new_eq m1 name (Clip clip) Hn Hl Hcur1), Hv1, Hs1, Hp1.
  assert (∀ v sv, lookup_animation name (selected name (Clip clip) v sv m1)
                  = Some (Clip clip)) as Hsel.
  { intros v sv. by rewrite <- Hl. }
  clearbody m1.
  pose proof (playAnimation__takes (Clip clip) (view m) Hv) as Hrv.
  destruct (playAnimation_ (Clip clip) (view m)) as [[[[]|e] v] ev];
    unfold result in Hrv; cbn in Hrv; [|discriminate].
  destruct (stencilView m) as [sv|].
  - pose proof (playAnimation__takes (Clip clip) sv Hsv) as Hrs.
    destruct (playAnimation_ (Clip clip) sv) as [[[[]|e] sv'] es] eqn:Hq;
      unfold result in Hrs; cbn in Hrs; [|discriminate].
    unfold result, state, effects. cbn [fst snd fmap option_fmap option_map].
    rewrite Hq, Hsel. repeat split; done.
  - unfold result, state, effects. cbn [fst snd fmap option_fmap option_map].
    rewrite Hsel. repeat split; done.
Qed.

Lemma play_after_setAnimation_sample :
  let r := play (Some "walk")
             (state (setAnimation "walk" 0 30 2 None None (fresh true None))) in
  result r = Ok this ∧ animation_ (state r) = "walk" ∧ playing_ (state r) = true
  ∧ looping_ (state r) = Some true ∧ lastTime_ (state r) = Some 0%float
  ∧ pendingAnimation_ (view (state r))
    = Some (Clip {| start := 0; end_ := 30; duration := 2000;
                    loop := true; forward := true |}).
Proof.
  destruct (play_after_setAnimation (fresh true None) "walk" 0 30 2 None None)
    as (H1 & H2 & H3 & H4 & H5 & _ & H7 & _);
    [done | reflexivity .. | done | done | done |].
  cbn zeta. rewrite H7. by repeat split.
Defined.

(** X25. [play] of a method name of [Object.prototype], such as "toString",
    under which no clip is stored, on a model that has another animation
    selected, or none, and whose views can take a clip: [play] returns
    [this] instead of failing. The name is selected though no clip is
    stored under it, the model plays, [looping_] is [undefined], [lastTime_]
    is 0, each view has been handed the inherited value as if it were a
    clip, and a [play] event is dispatched exactly when the model was not
    playing. *)
Theorem play_of_an_inherited_name (m : Model3D) (name : string) :
  name ∈ Object_prototype_methods -> animations_ m !! name = None ->
  name ≠ animation_ m ->
  takes_clips (view m) = true ->
  match stencilView m with Some sv => takes_clips sv = true | None => True end ->
  let r := play (Some name) m in
  result r = Ok this
  ∧ animation_ (state r) = name
  ∧ animations_ (state r) !! name = None
  ∧ playing_ (state r) = true
  ∧ looping_ (state r) = None
  ∧ lastTime_ (state r) = Some 0%float
  ∧ view (state r) = state (playAnimation_ Other (view m))
  ∧ stencilView (state r) = (λ sv, state (playAnimation_ Other sv)) <$> stencilView m
  ∧ effects r = (if playing_ m then [] else [dispatch "play"]).
Proof.
  intros Hin Hown Hcur Hv Hsv r.
  destruct (lookup_animation_method name m Hin Hown) as [Hn Hl].
  assert (animation_ m ≠ name) as Hcur' by congruence.
  subst r. rewrite (play_new_eq m name Other Hn Hl Hcur').
  pose proof (playAnimation__takes Other (view m) Hv) as Hrv.
  destruct (playAnimation_ Other (view m)) as [[[[]|e] v] ev];
    unfold result in Hrv; cbn in Hrv; [|discriminate].
  destruct (stencilView m) as [sv|].
  - pose proof (playAnimation__takes Other sv Hsv) as Hrs.
    destruct (playAnimation_ Other sv) as [[[[]|e] sv'] es] eqn:Hq;
      unfold result in Hrs; cbn in Hrs; [|discriminate].
    unfold result, state, effects. cbn [fst snd fmap option_fmap option_map].
    rewrite Hq. repeat split; done.
  - unfold result, state, effects. cbn [fst snd fmap option_fmap option_map].
    repeat split; done.
Qed.

Lemma play_of_an_inherited_name_sample :
  let r := play (Some "toString") (fresh true None) in
  result r = Ok this ∧ animation_ (state r) = "toString"
  ∧ looping_ (state r) = None
  ∧ pendingAnimation_ (view (state r)) = Some Other
  ∧ effects r = [dispatch "play"].
Proof.
  destruct (play_of_an_inherited_name (fresh true None) "toString")
    as (H1 & H2 & _ & _ & H5 & _ & H7 & _ & H9);
    [by repeat constructor | done | done | done | done |].
  cbn zeta. rewrite H7. by repeat split.
Defined.



(** ** More on the tick *)

Lemma getLastTime__eq (v : View) :
  getLastTime_ v
  = if loaded v
    then match modelMesh_ v with
         | Some mesh => (Ok (time mesh), v, [])
         | None => (Throw (TypeError "this.modelMesh_ is null or undefined"), v, [])
         end
    else (Ok (Some 0%float), v, []).
Proof. destruct v as [[|] p [mesh|] mat]; reflexivity. Qed.

(** *** Rules for [keeps] *)

Section Keeps.

Context {S : Type} (R : S -> S -> Prop) (P : Effect -> Prop).
Hypothesis R_refl : ∀ s, R s s.
Hypothesis R_trans : ∀ s1 s2 s3, R s1 s2 -> R s2 s3 -> R s1 s3.

Lemma keeps_ret {A} (a : A) : keeps R P (@ret S A a).
Proof using R_refl. intros s. split; [apply R_refl | constructor]. Qed.

Lemma keeps_get : keeps R P (@get S).
Proof using R_refl. intros s. split; [apply R_refl | constructor]. Qed.

Lemma keeps_throw {A} (e : Error) : keeps R P (@throw S A e).
Proof using R_refl. intros s. split; [apply R_refl | constructor]. Qed.

Lemma keeps_assert (b : bool) (message : string) :
  keeps R P (@assert_ S b message).
Proof using R_refl.
  destruct b; [apply keeps_ret | apply keeps_throw].
Qed.

Lemma keeps_emit (e : Effect) : P e -> keeps R P (@emit S e).
Proof using R_refl.
  intros He s. split; [apply R_refl | by repeat constructor].
Qed.

Lemma keeps_modify (f : S -> S) : (∀ s, R s (f s)) -> keeps R P (modify f).
Proof. intros Hf s. split; [apply Hf | constructor]. Qed.

Lemma keeps_bind {A B} (c : ST S A) (k : A -> ST S B) :
  keeps R P c -> (∀ a, keeps R P (k a)) -> keeps R P (bind c k).
Proof using R_trans.
  intros Hc Hk s. destruct (Hc s) as [HR HP]. unfold bind, state, effects in *.
  destruct (c s) as [[[a|e] s1] e1]; cbn in *; [|done].
  destruct (Hk a s1) as [HR' HP']. unfold state, effects in *.
  destruct (k a s1) as [[r s2] e2]; cbn in *.
  split; [by eapply R_trans | by apply Forall_app].
Qed.

End Keeps.

(** A call into a view keeps a relation on models when replacing the view
    by the one the call leaves does. *)
Lemma keeps_on_view {A} (R : Model3D -> Model3D -> Prop) (P : Effect -> Prop)
    (c : ST View A) :
  (∀ m, R m (set_view (state (c (view m))) m)) ->
  (∀ v, Forall P (effects (c v))) ->
  keeps R P (on_view c).
Proof.
  intros HR HP m. specialize (HR m). specialize (HP (view m)).
  unfold on_view, state, effects in *.
  by destruct (c (view m)) as [[r v] e].
Qed.

Lemma keeps_on_stencilView (R : Model3D -> Model3D -> Prop) (P : Effect -> Prop)
    (c : ST View unit) :
  (∀ m, R m m) ->
  (∀ m sv, stencilView m = Some sv ->
           R m (set_stencilView (Some (state (c sv))) m)) ->
  (∀ v, Forall P (effects (c v))) ->
  keeps R P (on_stencilView c).
Proof.
  intros Hrefl HR HP m. unfold on_stencilView, state, effects in *.
  destruct (stencilView m) as [sv|] eqn:Hsv; [|by split; [apply Hrefl|]].
  specialize (HR m sv Hsv). specialize (HP sv).
  by destruct (c sv) as [[r v] e].
Qed.

Lemma tick_frame_refl (m : Model3D) : tick_frame m m.
Proof. by repeat split. Qed.

Lemma tick_frame_trans (m1 m2 m3 : Model3D) :
  tick_frame m1 m2 -> tick_frame m2 m3 -> tick_frame m1 m3.
Proof.
  intros (H1 & H2 & H3 & H4 & H5 & H6 & H7 & H8)
    (G1 & G2 & G3 & G4 & G5 & G6 & G7 & G8).
  repeat split; try congruence. auto.
Qed.

Lemma stop_keeps_tick_frame :
  keeps tick_frame (λ e, tick_effect e = true) stop.
Proof.
  intros m. rewrite stop_eq. unfold state, effects. cbn.
  split; [by repeat split|]. destruct (playing_ m); by repeat constructor.
Qed.

Section MoreTicks.

Variable updateAnimation : Mesh -> float -> Mesh.

(** Advancing a view marks it dirty at most once and calls nothing else. *)
Lemma updateAnimation__effects (id : ViewId) (deltaTimeMs : float) (v : View) :
  effects (updateAnimation_ updateAnimation id deltaTimeMs v) = []
  ∨ effects (updateAnimation_ updateAnimation id deltaTimeMs v) = [dirty id].
Proof.
  destruct v as [[|] [[[s e d l [|]]|]|] [[[|] t d' f r]|] mat]; cbn; auto.
Qed.

Lemma setToLastFrame__effects (id : ViewId) (v : View) :
  effects (setToLastFrame_ updateAnimation id v) = []
  ∨ effects (setToLastFrame_ updateAnimation id v) = [dirty id].
Proof.
  destruct v as [l p [[[|] t d' f r]|] mat]; cbn; auto.
Qed.

(** A view that is not loaded does not advance. *)
Lemma updateAnimation__unloaded (id : ViewId) (deltaTimeMs : float) (v : View) :
  loaded v = false ->
  updateAnimation_ updateAnimation id deltaTimeMs v = (Ok tt, v, []).
Proof.
  intros H. unfold updateAnimation_, bind, get. cbn. by rewrite H.
Qed.

(** A view marked loaded that holds no mesh throws when it advances. *)
Lemma updateAnimation__no_mesh (id : ViewId) (deltaTimeMs : float) (v : View) :
  loaded v = true -> modelMesh_ v = None ->
  updateAnimation_ updateAnimation id deltaTimeMs v
  = (Throw (TypeError "this.modelMesh_ is null or undefined"), v, []).
Proof.
  destruct v as [l [[[s e d lo [|]]|]|] mm mat]; cbn; intros -> ->; reflexivity.
Qed.

Lemma updateAnimation__dirty_only (id : ViewId) (deltaTimeMs : float) (v : View) :
  Forall (λ e, tick_effect e = true)
    (effects (updateAnimation_ updateAnimation id deltaTimeMs v)).
Proof.
  destruct (updateAnimation__effects id deltaTimeMs v) as [-> | ->];
    by repeat constructor.
Qed.

Lemma setToLastFrame__dirty_only (id : ViewId) (v : View) :
  Forall (λ e, tick_effect e = true)
    (effects (setToLastFrame_ updateAnimation id v)).
Proof.
  destruct (setToLastFrame__effects id v) as [-> | ->]; by repeat constructor.
Qed.

Lemma getLastTime__silent (v : View) :
  Forall (λ e, tick_effect e = true) (effects (getLastTime_ v)).
Proof. rewrite getLastTime__eq. by destruct (loaded v), (modelMesh_ v). Qed.

Lemma update_keeps_tick_frame (deltaTime : float) :
  keeps tick_frame (λ e, tick_effect e = true) (update updateAnimation deltaTime).
Proof.
  pose proof tick_frame_refl as Hr. pose proof tick_frame_trans as Ht.
  unfold update.
  apply keeps_bind; [done | apply keeps_get; done | intros m].
  destruct (playing_ m); [|by apply keeps_ret].
  apply keeps_bind; [done | | intros _].
  { apply keeps_on_view; [by repeat split | apply updateAnimation__dirty_only]. }
  apply keeps_bind; [done | | intros _].
  { apply keeps_on_stencilView;
      [done | by repeat split | apply updateAnimation__dirty_only]. }
  destruct (negb (js_true (looping_ m))); [|by apply keeps_ret].
  apply keeps_bind; [done | | intros lastTime].
  { apply keeps_on_view; [by repeat split | apply getLastTime__silent]. }
  destruct (js_lt lastTime (lastTime_ m)).
  - apply keeps_bind; [done | | intros _].
    { apply keeps_on_view; [by repeat split | apply setToLastFrame__dirty_only]. }
    apply keeps_bind; [done | | intros _].
    { apply keeps_on_stencilView;
        [done | by repeat split | apply setToLastFrame__dirty_only]. }
    apply keeps_bind; [done | apply stop_keeps_tick_frame | intros _].
    by apply keeps_ret.
  - apply keeps_modify. by repeat split.
Qed.

(** X15. What a tick never does. Whether it returns or throws, [update]
    leaves the source, the format, [animated_], the clips, the selected
    animation and [looping_] as they were and never starts the playback;
    outside the model it only marks views dirty and dispatches [stop]: it
    never dispatches [play] or [changeModelSrc], never touches the scene or
    the triggers and never asks the loader for anything. A model that does
    not play is left as it is. *)
Theorem update_only_advances (deltaTime : float) (m : Model3D) :
  let r := update updateAnimation deltaTime m in
  tick_frame m (state r)
  ∧ Forall (λ e, tick_effect e = true) (effects r)
  ∧ requests (effects r) = []
  ∧ dispatched "play" (effects r) = 0
  ∧ dispatched "changeModelSrc" (effects r) = 0
  ∧ (playing_ m = false -> r = (Ok tt, m, [])).
Proof.
  cbn zeta. destruct (update_keeps_tick_frame deltaTime m) as [Hf He].
  do 2 (split; [done|]).
  assert (∀ es, Forall (λ e, tick_effect e = true) es ->
                requests es = [] ∧ dispatched "play" es = 0
                ∧ dispatched "changeModelSrc" es = 0) as Hes.
  { induction 1 as [|e es Hte _ (IH1 & IH2 & IH3)]; [done|].
    destruct e as [type| | | | | | |]; cbn in *; try done.
    apply String.eqb_eq in Hte as ->. by rewrite IH2, IH3. }
  destruct (Hes _ He) as (H1 & H2 & H3).
  do 3 (split; [done|]). apply update_idle.
Qed.

End MoreTicks.

Section TickCases.

Variable updateAnimation : Mesh -> float -> Mesh.

(** X16. A clip that loops never finishes: while [looping_] is true a tick
    only advances the views; the model goes on playing, [lastTime_] is not
    written and no [stop] event is dispatched, however the clock of the
    mesh moves. *)
Theorem looping_clip_never_finishes (deltaTime : float) (m : Model3D) :
  playing_ m = true -> looping_ m = Some true ->
  let r := update updateAnimation deltaTime m in
  playing_ (state r) = true
  ∧ lastTime_ (state r) = lastTime_ m
  ∧ dispatched "stop" (effects r) = 0
  ∧ view (state r)
    = state (updateAnimation_ updateAnimation Primary (deltaTime * 1000)%float (view m)).
Proof.
  intros Hp Hl. destruct m as [src f an ans pr cur pl lo lt v0 sv0]; cbn in *.
  subst pl lo. unfold update, bind, get, state, effects, on_view, on_stencilView.
  cbn.
  pose proof (updateAnimation__effects updateAnimation Primary
                (deltaTime * 1000)%float v0) as He1.
  destruct (updateAnimation_ updateAnimation Primary _ v0) as [[[[]|?] v1] e1];
    unfold effects in He1; cbn in He1; cbn;
    [|by destruct He1 as [-> | ->]].
  destruct sv0 as [sv|]; cbn.
  - pose proof (updateAnimation__effects updateAnimation Stencil
                  (deltaTime * 1000)%float sv) as He2.
    destruct (updateAnimation_ updateAnimation Stencil _ sv) as [[[[]|?] v2] e2];
      unfold effects in He2; cbn in He2; cbn;
      by destruct He1 as [-> | ->], He2 as [-> | ->].
  - by destruct He1 as [-> | ->].
Qed.

(** X17. The tick of a model that plays a clip once ([looping_] is false,
    or undefined), when the views hold a mesh at the time of the sample. A sampled time that is not below
    [lastTime_] is stored in [lastTime_] and the model goes on playing. A
    sampled time below [lastTime_] ends the clip: each view whose mesh can
    be animated is snapped, its time set to 1 and its pose updated, and
    marked dirty once; the model stops, dispatching one [stop] event, and
    [lastTime_] is left as it was. *)
Theorem tick_of_a_clip_played_once (deltaTime : float) (m m1 : Model3D)
    (lastTime : option float) (es : list Effect) :
  playing_ m = true -> js_true (looping_ m) = false ->
  advance_and_sample updateAnimation deltaTime m = (Ok lastTime, m1, es) ->
  (js_lt lastTime (lastTime_ m) = false ->
   update updateAnimation deltaTime m = (Ok tt, set_lastTime_ lastTime m1, es)
   ∧ playing_ (set_lastTime_ lastTime m1) = true)
  ∧ (js_lt lastTime (lastTime_ m) = true ->
     has_mesh (view m1) = true ->
     match stencilView m1 with Some sv => has_mesh sv = true | None => True end ->
     update updateAnimation deltaTime m =
       (Ok tt,
        set_playing_ false
          (set_stencilView (snapped updateAnimation <$> stencilView m1)
             (set_view (snapped updateAnimation (view m1)) m1)),
        es
          ++ (if has_morph_mesh (view m1) then [dirty Primary] else [])
          ++ match stencilView m1 with
             | Some sv => if has_morph_mesh sv then [dirty Stencil] else []
             | None => []
             end
          ++ [dispatch "stop"])).
Proof. apply update_once. Qed.

(** X18. While a view is marked loaded and holds no mesh, as it does from a
    change of source until the loader answers, every tick of a playing
    model throws a [TypeError] and leaves the model as it was. *)
Theorem tick_throws_while_view_reloads (deltaTime : float) (m : Model3D) :
  playing_ m = true -> loaded (view m) = true -> modelMesh_ (view m) = None ->
  update updateAnimation deltaTime m
  = (Throw (TypeError "this.modelMesh_ is null or undefined"), m, []).
Proof.
  intros Hp Hl Hm. destruct m as [src f an ans pr cur pl lo lt v0 sv0]; cbn in *.
  subst pl. unfold update, bind, get, on_view. cbn.
  by rewrite (updateAnimation__no_mesh updateAnimation Primary _ v0 Hl Hm).
Qed.

(** X19. Before the loader has answered, the ticks of a model that was just
    played do nothing: with no view loaded and [lastTime_] at 0, [update]
    returns, leaves the model as it was and calls nothing. *)
Theorem tick_before_load_is_idle (deltaTime : float) (m : Model3D) :
  playing_ m = true -> lastTime_ m = Some 0%float ->
  loaded (view m) = false ->
  match stencilView m with Some sv => loaded sv = false | None => True end ->
  update updateAnimation deltaTime m = (Ok tt, m, []).
Proof.
  intros Hp Hlt Hl Hs. destruct m as [src f an ans pr cur pl lo lt v0 sv0]; cbn in *.
  subst pl lt. unfold update, bind, get, on_view, on_stencilView. cbn.
  rewrite (updateAnimation__unloaded updateAnimation Primary _ v0 Hl). cbn.
  destruct sv0 as [sv|]; cbn.
  - rewrite (updateAnimation__unloaded updateAnimation Stencil _ sv Hs). cbn.
    destruct lo as [[|]|]; cbn; [done | |]; rewrite getLastTime__eq, Hl; done.
  - destruct lo as [[|]|]; cbn; [done | |]; rewrite getLastTime__eq, Hl; done.
Qed.

(** X20. The pending clip, from the request to the mesh. A view that is
    not loaded is handed two clips; the loader then answers, for an
    animated model, with a textured material; the first advance of the
    view applies the second clip to the new mesh (time 0, then duration,
    direction and frame range of the clip), empties the pending slot,
    advances the clock of the mesh by the delta and marks the view dirty
    once. The same holds of any two values that [play] can hand to a view:
    the properties a value does not have are written as [undefined] and
    the direction is then backward. *)
Theorem pending_clip_reaches_the_mesh (id : ViewId) (deltaTimeMs : float)
    (first second : Value) (built : Mesh) (materials : list Material)
    (material : Material) (v : View) :
  loaded v = false ->
  head materials = Some material -> is_Some (map material) ->
  let v1 := state (playAnimation_ second (state (playAnimation_ first v))) in
  let v2 := state (loadJson_callback id true built materials v1) in
  pendingAnimation_ v1 = Some second
  ∧ result (loadJson_callback id true built materials v1) = Ok tt
  ∧ updateAnimation_ updateAnimation id deltaTimeMs v2
    = (Ok tt,
       {| loaded := true; pendingAnimation_ := None;
          modelMesh_ :=
            Some (updateAnimation
                    {| morph := true; time := Some 0%float;
                       mduration := duration_of second;
                       directionForward := js_true (forward_of second);
                       frameRange := Some (start_of second, end_of second) |}
                    deltaTimeMs);
          material_ := Some {| map := Some false; morphTargets := true |} |},
       [dirty id]).
Proof.
  intros Hl Hh [t Ht] v1 v2.
  destruct (pending_keeps_last_clip first second v Hl) as [_ Hp].
  subst v2 v1. rewrite Hp. unfold state at 1 2 3. cbn [fst snd].
  destruct materials as [|mat ms]; [done|]. cbn in Hh. simplify_eq.
  destruct material as [mp mt]. cbn in Ht. subst mp.
  destruct v as [l p mm mat]; cbn in Hl; subst l.
  split; [done|]. split; [done|].
  by destruct second as [[s e d lo [|]]|].
Qed.

End TickCases.

Lemma looping_clip_sample :
  let m := run wrapping_clock
             [loader_answers Primary built_mesh [textured];
              call_setAnimation "walk" 0 30 1 None None;
              call_play (Some "walk");
              call_update 0.5]
             (fresh false None) in
  playing_ (state (update wrapping_clock 0.6 m)) = true
  ∧ time <$> modelMesh_ (view (state (update wrapping_clock 0.6 m)))
    = Some (Some 100%float).
Proof.
  intros m.
  destruct (looping_clip_never_finishes wrapping_clock 0.6 m) as (H1 & _ & _ & H4);
    [reflexivity | reflexivity |].
  split; [exact H1 | by rewrite H4].
Defined.

Lemma tick_of_a_clip_played_once_sample :
  playing_ (state (update wrapping_clock 0.6 playing_once)) = false
  ∧ dispatched "stop" (effects (update wrapping_clock 0.6 playing_once)) = 1.
Proof.
  destruct (tick_of_a_clip_played_once wrapping_clock 0.6 playing_once
              (state (advance_and_sample wrapping_clock 0.6 playing_once))
              (Some 100%float)
              (effects (advance_and_sample wrapping_clock 0.6 playing_once)))
    as [_ H]; [reflexivity | reflexivity | by vm_compute |].
  rewrite H; [by vm_compute | reflexivity | reflexivity | exact I].
Defined.

Lemma tick_throws_while_view_reloads_sample :
  result (update wrapping_clock 0.5 (state (play None reloading_model)))
  = Throw (TypeError "this.modelMesh_ is null or undefined").
Proof.
  by rewrite (tick_throws_while_view_reloads wrapping_clock 0.5
                (state (play None reloading_model))).
Defined.

Lemma tick_before_load_sample :
  let m := run wrapping_clock
             [call_setAnimation "walk" 0 30 2 None None; call_play (Some "walk")]
             (fresh true None) in
  update wrapping_clock 0.5 m = (Ok tt, m, []).
Proof.
  intros m.
  by apply (tick_before_load_is_idle wrapping_clock 0.5 m).
Defined.

Lemma pending_clip_reaches_the_mesh_sample :
  let walk := Clip {| start := 0; end_ := 30; duration := 2000;
                      loop := true; forward := true |} in
  let run_clip := Clip {| start := 31; end_ := 50; duration := 1000;
                          loop := true; forward := false |} in
  let v1 := state (playAnimation_ run_clip (state (playAnimation_ walk new_view))) in
  let v2 := state (loadJson_callback Primary true built_mesh [textured] v1) in
  (frameRange <$> modelMesh_ (state (updateAnimation_ wrapping_clock Primary 16 v2)))
  = Some (Some (Some 31, Some 50)%float)
  ∧ pendingAnimation_ (state (updateAnimation_ wrapping_clock Primary 16 v2)) = None.
Proof.
  intros walk run_clip v1 v2.
  destruct (pending_clip_reaches_the_mesh wrapping_clock Primary 16 walk run_clip
              built_mesh [textured] textured new_view)
    as (_ & _ & H); [reflexivity | reflexivity | by eexists |].
  fold v1 v2 in H. rewrite H. by vm_compute.
Defined.

(** ** Invariants of the runs *)

Lemma run_frame_refl (m : Model3D) : run_frame m m.
Proof. unfold run_frame. auto. Qed.

Lemma run_frame_same_views (m m' : Model3D) :
  animated_ m' = animated_ m -> format_ m' = format_ m ->
  (modelSrc_ m ≠ "" -> modelSrc_ m' ≠ "") ->
  view m' = view m -> stencilView m' = stencilView m ->
  run_frame m m'.
Proof.
  intros Ha Hf Hs Hv Hsv. do 3 (split; [done|]).
  unfold views_satisfy. by rewrite Hv, Hsv.
Qed.

Lemma run_frame_trans (m1 m2 m3 : Model3D) :
  run_frame m1 m2 -> run_frame m2 m3 -> run_frame m1 m3.
Proof.
  intros (H1 & H2 & H3 & H4) (G1 & G2 & G3 & G4).
  split; [congruence|]. split; [congruence|]. split; auto.
Qed.

Lemma run_frame_set_view (m : Model3D) (v : View) :
  (unloaded_is_empty (view m) -> unloaded_is_empty v) ->
  run_frame m (set_view v m).
Proof.
  intros H. do 3 (split; [done|]). intros [Hv Hs]. split; [by apply H | done].
Qed.

Lemma run_frame_set_stencilView (m : Model3D) (sv v : View) :
  stencilView m = Some sv ->
  (unloaded_is_empty sv -> unloaded_is_empty v) ->
  run_frame m (set_stencilView (Some v) m).
Proof.
  intros Hsv H. do 3 (split; [done|]). intros [Hv Hs]. rewrite Hsv in Hs.
  split; [done | by apply H].
Qed.

Lemma tick_effect_component (es : list Effect) :
  Forall (λ e, tick_effect e = true) es -> Forall component_effect es.
Proof.
  intros Hes. eapply Forall_impl; [exact Hes|].
  intros [type| | | | | | |] H; cbn in *; try done.
  apply String.eqb_eq in H as ->. unfold component_events. by repeat constructor.
Qed.

Lemma playAnimation__keeps_empty (animation : Value) (v : View) :
  unloaded_is_empty v -> unloaded_is_empty (state (playAnimation_ animation v)).
Proof.
  destruct v as [[|] p [[[|] t d f r]|] mat], animation as [[s e d' l [|]]|];
    unfold unloaded_is_empty; cbn; done.
Qed.

Lemma loadModel__keeps_empty (id : ViewId) (f : Format) (src : string) (v : View) :
  unloaded_is_empty v -> unloaded_is_empty (state (loadModel_ id f src v)).
Proof. rewrite loadModel__eq. unfold unloaded_is_empty. cbn. done. Qed.

Lemma loadJson_callback_keeps_empty (id : ViewId) (animated : bool) (built : Mesh)
    (materials : list Material) (v : View) :
  unloaded_is_empty v ->
  unloaded_is_empty (state (loadJson_callback id animated built materials v)).
Proof.
  destruct animated, materials as [|[[t|] mt] ms], v as [l p mm mat];
    unfold unloaded_is_empty; cbn; done.
Qed.

Lemma loadJson_callback_effects (id : ViewId) (animated : bool) (built : Mesh)
    (materials : list Material) (v : View) :
  Forall component_effect
    (effects (loadJson_callback id animated built materials v)).
Proof.
  destruct animated, materials as [|[[t|] mt] ms], v as [l p mm mat]; cbn;
    by repeat constructor.
Qed.

Lemma loadModel__effects (id : ViewId) (f : Format) (src : string) (v : View) :
  Forall component_effect (effects (loadModel_ id f src v)).
Proof.
  rewrite loadModel__eq. unfold effects. cbn.
  destruct (has_mesh v), (has_material v); cbn; by repeat constructor.
Qed.

Lemma playAnimation__effects (animation : Value) (v : View) :
  Forall component_effect (effects (playAnimation_ animation v)).
Proof. rewrite playAnimation__silent. constructor. Qed.

(** A failed assertion ends the method: what follows needs the rule only
    when the assertion holds. *)
Lemma keeps_assert_then {S A} (R : S -> S -> Prop) (P : Effect -> Prop)
    (b : bool) (message : string) (k : ST S A) :
  (∀ s, R s s) ->
  (b = true -> keeps R P k) ->
  keeps R P (bind (assert_ b message) (λ _, k)).
Proof.
  intros Hr Hk. destruct b; intros s; unfold bind, state, effects; cbn.
  - destruct (Hk eq_refl s) as [HR HP]. unfold state, effects in *.
    by destruct (k s) as [[r s'] e].
  - split; [apply Hr | constructor].
Qed.

Section RunInvariants.

Variable updateAnimation : Mesh -> float -> Mesh.

Lemma updateAnimation__keeps_empty (id : ViewId) (deltaTimeMs : float) (v : View) :
  unloaded_is_empty v ->
  unloaded_is_empty (state (updateAnimation_ updateAnimation id deltaTimeMs v)).
Proof.
  destruct v as [[|] [[[s e d l [|]]|]|] [[[|] t d' f r]|] mat];
    unfold unloaded_is_empty; cbn; done.
Qed.

Lemma setToLastFrame__keeps_empty (id : ViewId) (v : View) :
  unloaded_is_empty v ->
  unloaded_is_empty (state (setToLastFrame_ updateAnimation id v)).
Proof.
  destruct v as [[|] p [[[|] t d' f r]|] mat]; unfold unloaded_is_empty; cbn;
    try done; intros H Hl; by destruct (H Hl).
Qed.

Lemma getLastTime__state (v : View) : state (getLastTime_ v) = v.
Proof. rewrite getLastTime__eq. by destruct (loaded v), (modelMesh_ v). Qed.

(** The rules, for [run_frame] and [component_effect]. *)
Ltac frame_rule :=
  first
    [ apply keeps_ret; exact run_frame_refl
    | apply keeps_get; exact run_frame_refl
    | apply keeps_throw; exact run_frame_refl
    | apply keeps_modify; intros ?; by apply run_frame_same_views
    | apply keeps_emit;
        [exact run_frame_refl | cbn; unfold component_events; by repeat constructor]
    | apply keeps_bind; [exact run_frame_trans | | intros ?] ].

Lemma stop_keeps_run_frame : keeps run_frame component_effect stop.
Proof.
  unfold stop. frame_rule; [frame_rule|]. frame_rule.
  - destruct (playing_ _); frame_rule.
  - frame_rule; frame_rule.
Qed.

Lemma play_keeps_run_frame (opt_name : option string) :
  keeps run_frame component_effect (play opt_name).
Proof.
  unfold play. frame_rule; [frame_rule|]. destruct opt_name as [name|].
  - apply keeps_assert_then; [exact run_frame_refl | intros _].
    destruct (lookup_animation name _) as [animation|]; [|frame_rule].
    destruct (String.eqb _ name); [frame_rule; frame_rule|].
    frame_rule; [frame_rule|].
    frame_rule.
    { apply keeps_on_view; [|apply playAnimation__effects].
      intros m. apply run_frame_set_view, playAnimation__keeps_empty. }
    frame_rule.
    { apply keeps_on_stencilView;
        [exact run_frame_refl | | apply playAnimation__effects].
      intros m sv Hsv.
      eapply run_frame_set_stencilView; [done | apply playAnimation__keeps_empty]. }
    frame_rule; [destruct (negb _); frame_rule|].
    repeat (frame_rule; [frame_rule|]). frame_rule.
  - apply keeps_assert_then; [exact run_frame_refl | intros _].
    frame_rule; frame_rule.
Qed.

Lemma setAnimation_keeps_run_frame (name : string) (start end_ seconds : float)
    (opt_loop opt_forward : option bool) :
  keeps run_frame component_effect
    (setAnimation name start end_ seconds opt_loop opt_forward).
Proof.
  unfold setAnimation.
  do 4 (apply keeps_assert_then; [exact run_frame_refl | intros _]).
  frame_rule; [|frame_rule].
  apply keeps_modify. intros m.
  destruct (assign_animation_fields name
              {| start := start; end_ := end_; duration := (seconds * 1000)%float;
                 loop := match opt_loop with Some l => l | None => true end;
                 forward := match opt_forward with None => true | Some f => f end |}
              m) as (Hsrc & Hf & Ha & _ & _ & _ & _ & Hv & Hs).
  apply run_frame_same_views; try done. by rewrite Hsrc.
Qed.

Lemma setModelSrc_keeps_run_frame (path : string) :
  keeps run_frame component_effect (setModelSrc path).
Proof.
  unfold setModelSrc.
  apply keeps_assert_then; [exact run_frame_refl | intros Hp].
  apply truthy_spec in Hp.
  frame_rule; [frame_rule|]. destruct (String.eqb _ path); [frame_rule|].
  frame_rule.
  { apply keeps_modify. intros m. by apply run_frame_same_views. }
  frame_rule; [apply stop_keeps_run_frame|].
  frame_rule; [frame_rule|].
  frame_rule.
  { apply keeps_on_view; [|intros v; apply loadModel__effects].
    intros m. apply run_frame_set_view, loadModel__keeps_empty. }
  frame_rule; [|frame_rule].
  apply keeps_on_stencilView;
    [exact run_frame_refl | | intros v; apply loadModel__effects].
  intros m sv Hsv.
  eapply run_frame_set_stencilView; [done | apply loadModel__keeps_empty].
Qed.

Lemma update_keeps_run_frame (deltaTime : float) :
  keeps run_frame component_effect (update updateAnimation deltaTime).
Proof.
  unfold update. frame_rule; [frame_rule|].
  destruct (playing_ _); [|frame_rule].
  frame_rule.
  { apply keeps_on_view.
    - intros m. apply run_frame_set_view, updateAnimation__keeps_empty.
    - intros v. apply tick_effect_component, updateAnimation__dirty_only. }
  frame_rule.
  { apply keeps_on_stencilView; [exact run_frame_refl | |].
    - intros m sv Hsv. eapply run_frame_set_stencilView;
        [done | apply updateAnimation__keeps_empty].
    - intros v. apply tick_effect_component, updateAnimation__dirty_only. }
  destruct (negb _); [|frame_rule].
  frame_rule.
  { apply keeps_on_view.
    - intros m. apply run_frame_set_view. by rewrite getLastTime__state.
    - intros v. apply tick_effect_component, getLastTime__silent. }
  destruct (js_lt _ _); [|frame_rule].
  frame_rule.
  { apply keeps_on_view.
    - intros m. apply run_frame_set_view, setToLastFrame__keeps_empty.
    - intros v. apply tick_effect_component, setToLastFrame__dirty_only. }
  frame_rule.
  { apply keeps_on_stencilView; [exact run_frame_refl | |].
    - intros m sv Hsv. eapply run_frame_set_stencilView;
        [done | apply setToLastFrame__keeps_empty].
    - intros v. apply tick_effect_component, setToLastFrame__dirty_only. }
  frame_rule; [apply stop_keeps_run_frame | frame_rule].
Qed.

Lemma exec_keeps_run_frame (c : Call) :
  keeps run_frame component_effect (exec updateAnimation c).
Proof.
  destruct c as [name s e secs ol ofw | opt_name | | path | deltaTime
                 | [|] built materials]; cbn [exec].
  - frame_rule; [apply setAnimation_keeps_run_frame | frame_rule].
  - frame_rule; [apply play_keeps_run_frame | frame_rule].
  - frame_rule; [apply stop_keeps_run_frame | frame_rule].
  - frame_rule; [apply setModelSrc_keeps_run_frame | frame_rule].
  - apply update_keeps_run_frame.
  - frame_rule; [frame_rule|].
    apply keeps_on_view; [|intros v; apply loadJson_callback_effects].
    intros m. apply run_frame_set_view, loadJson_callback_keeps_empty.
  - frame_rule; [frame_rule|].
    apply keeps_on_stencilView;
      [exact run_frame_refl | | intros v; apply loadJson_callback_effects].
    intros m sv Hsv.
    eapply run_frame_set_stencilView; [done | apply loadJson_callback_keeps_empty].
Qed.

End RunInvariants.

Lemma create_views (options : Options) (stencils : bool) (m : Model3D) :
  create options stencils = Ok m ->
  view m = new_view
  ∧ stencilView m = (if stencils then Some new_view else None)
  ∧ modelSrc_ m ≠ "".
Proof.
  unfold create. destruct (initialize options stencils) as [m0|e] eqn:Hi; [|done].
  intros [= <-].
  assert (view m0 = new_view
          ∧ stencilView m0 = (if stencils then Some new_view else None)
          ∧ modelSrc_ m0 ≠ "") as (Hv & Hs & Hsrc).
  { unfold initialize in Hi.
    destruct (truthy (modelSrc options)) eqn:Ht; [|done].
    apply truthy_spec in Ht. cbn in Hi.
    destruct (format options) as [f|]; [destruct (String.eqb f "json")|];
      by simplify_eq. }
  rewrite load_views_eq; [done | done |].
  rewrite Hs. destruct stencils; auto.
Qed.

Section RunTheorems.

Variable updateAnimation : Mesh -> float -> Mesh.

(** X21. In every state reached from the constructor, a view that is not
    marked loaded holds neither mesh nor material: a mesh appears only
    with the answer of the loader, which marks the view loaded, and no
    call clears the mark. *)
Theorem unloaded_views_hold_nothing (m : Model3D) :
  reachable updateAnimation m -> views_satisfy unloaded_is_empty m.
Proof.
  induction 1 as [options stencils m Hc | c m Hr IH].
  - apply create_views in Hc as (Hv & Hs & _).
    unfold views_satisfy. rewrite Hv, Hs. by destruct stencils.
  - destruct (exec_keeps_run_frame updateAnimation c m) as [(_ & _ & _ & H) _].
    by apply H.
Qed.

(** X22. In every state reached from the constructor the source is not
    empty and no clip is registered under the empty name; and no call
    changes [animated_]: a model is animated, or not, for good. *)
Theorem source_and_names_never_empty (m : Model3D) (c : Call) :
  reachable updateAnimation m ->
  modelSrc_ m ≠ ""
  ∧ animations_ m !! "" = None
  ∧ animated_ (state (exec updateAnimation c m)) = animated_ m.
Proof.
  intros Hr. split; [|split].
  - induction Hr as [options stencils m Hc | c' m Hr IH].
    + by apply create_views in Hc as (_ & _ & ?).
    + destruct (exec_keeps_run_frame updateAnimation c' m) as [(_ & _ & H & _) _].
      by apply H.
  - by apply (registered_names_not_empty updateAnimation).
  - by destruct (exec_keeps_run_frame updateAnimation c m) as [(? & _) _].
Qed.

(** X23. In every state reached from the constructor, the selected name is
    empty or a name that [in] finds in [animations_], a stored clip or an
    inherited property; and a model that plays has a selected name that
    [in] finds, so [play()] without name returns on it and changes
    nothing. *)
Theorem playing_model_has_selection (m : Model3D) :
  reachable updateAnimation m ->
  (animation_ m = "" ∨ has_animation (animation_ m) m = true)
  ∧ (playing_ m = true ->
     has_animation (animation_ m) m = true ∧ play None m = (Ok this, m, [])).
Proof.
  intros Hr. destruct (selected_name_found updateAnimation m Hr) as [H1 H2].
  split; [done|]. intros Hp. specialize (H2 Hp). split; [done|].
  rewrite play_resume_eq, H2. destruct m; cbn in *; by subst.
Qed.

(** X24. The events of the component are [play], [stop] and
    [changeModelSrc]: no call, tick or answer of the loader dispatches any
    other; and none changes [animated_] or the format. *)
Theorem only_component_events (c : Call) (m : Model3D) :
  (∀ type, dispatch type ∈ effects (exec updateAnimation c m) ->
           type ∈ component_events)
  ∧ animated_ (state (exec updateAnimation c m)) = animated_ m
  ∧ format_ (state (exec updateAnimation c m)) = format_ m.
Proof.
  destruct (exec_keeps_run_frame updateAnimation c m) as [(Ha & Hf & _) He].
  split; [|done]. intros type Hin.
  rewrite Forall_forall in He. by apply (He (dispatch type)).
Qed.

End RunTheorems.

Lemma unloaded_views_sample :
  views_satisfy unloaded_is_empty reloading_model.
Proof.
  apply (unloaded_views_hold_nothing wrapping_clock), reachable_fresh_run.
Defined.

Lemma source_and_names_sample :
  modelSrc_ reloading_model ≠ ""
  ∧ animations_ reloading_model !! "" = None
  ∧ animated_ (state (exec wrapping_clock (call_play (Some "walk")) reloading_model))
    = animated_ reloading_model.
Proof.
  apply (source_and_names_never_empty wrapping_clock), reachable_fresh_run.
Defined.

Lemma playing_model_sample :
  has_animation (animation_ playing_once) playing_once = true
  ∧ play None playing_once = (Ok this, playing_once, []).
Proof.
  apply (playing_model_has_selection wrapping_clock);
    [apply reachable_fresh_run | reflexivity].
Defined.
